(** * Offline asset persistence and the application-shell service worker

    A shallow embedding of the two parts of the video PWA that keep it
    usable offline:

    - [Downloads]: the OPFS-backed download tab of the application
      component (the [ls] helper, [writeFileToOPFS], [readFileFromOPFS],
      [deleteFromOPFS], the mount effect of [TabDownloads], [handleAdd]
      and [handleRemove]);
    - [ServiceWorker]: [service-worker.js] (install, activate and the
      fetch listener).

    Asynchronous code is embedded sequentially: every [await] is a bind of
    a state-and-exception monad over the browser state the code touches. *)

From Stdlib Require Import ZArith Strings.Byte Strings.Ascii Sorting.Sorted.
From stdpp Require Import gmap strings list fin_maps.

Open Scope string_scope.
Open Scope list_scope.

(** ** Exceptions and results shared by both parts *)

(** The DOMException / Error kinds the modelled browser calls reject with. *)
Inductive Exn : Type :=
  | AbortError
  | NotFoundError
  | NotReadableError
  | TypeError
  | InvalidStateError.

(** [e.name] *)
Definition exn_name (e : Exn) : string :=
  match e with
  | AbortError => "AbortError"
  | NotFoundError => "NotFoundError"
  | NotReadableError => "NotReadableError"
  | TypeError => "TypeError"
  | InvalidStateError => "InvalidStateError"
  end.

Inductive Result (A : Type) : Type :=
  | Ok (a : A)
  | Throw (e : Exn).
Arguments Ok {A} a.
Arguments Throw {A} e.

Definition is_ok {A : Type} (r : Result A) : bool :=
  match r with Ok _ => true | Throw _ => false end.

(** JavaScript's [a ?? b] on a possibly undefined left operand. *)
Definition nullish {A : Type} (a : option A) (b : A) : A :=
  match a with Some x => x | None => b end.

(** ** The monad of asynchronous code: state plus exceptions.
    A rejected promise keeps the effects performed before the rejection. *)
Section Async.
Context {S : Type}.

Definition M (A : Type) : Type := S -> Result A * S.

Definition ret {A : Type} (a : A) : M A := fun w => (Ok a, w).

Definition bind {A B : Type} (m : M A) (k : A -> M B) : M B :=
  fun w =>
    match m w with
    | (Ok a, w') => k a w'
    | (Throw e, w') => (Throw e, w')
    end.

Definition throw {A : Type} (e : Exn) : M A := fun w => (Throw e, w).

(** [try { m } catch (e) { handler e }] *)
Definition try_catch {A : Type} (m : M A) (handler : Exn -> M A) : M A :=
  fun w =>
    match m w with
    | (Ok a, w') => (Ok a, w')
    | (Throw e, w') => handler e w'
    end.

Definition gets {A : Type} (f : S -> A) : M A := fun w => (Ok (f w), w).

Definition modify (f : S -> S) : M unit := fun w => (Ok tt, f w).

(** A promise that nobody awaits and that has no handler: what it does
    happens, its rejection is lost. *)
Definition unawaited {A : Type} (m : M A) : M unit := fun w => (Ok tt, (m w).2).
End Async.
Arguments M S A : clear implicits.

Notation "'let*' x ':=' m 'in' k" := (bind m (fun x => k))
  (at level 10, x name, m at level 100, k at level 200).
Notation "m ';;;' k" := (bind m (fun _ => k))
  (at level 100, k at level 200, right associativity).

(** A JavaScript [Map] keeps its keys in first-insertion order; [set] on a
    key that is present replaces the value where it stands. *)
Module JsMap.
Section JsMap.
Context {V : Type}.

Fixpoint set (k : string) (v : V) (m : list (string * V)) : list (string * V) :=
  match m with
  | [] => [(k, v)]
  | (k', v') :: rest =>
      if decide (k' = k) then (k, v) :: rest else (k', v') :: set k v rest
  end.

(** [new Map(entries)] *)
Definition of_entries (entries : list (string * V)) : list (string * V) :=
  foldl (fun m kv => set kv.1 kv.2 m) [] entries.

(** [Array.from(m.values())] *)
Definition values (m : list (string * V)) : list V := m.*2.

Definition keys (m : list (string * V)) : list string := m.*1.

(** [m.get(k)] *)
Fixpoint get (k : string) (m : list (string * V)) : option V :=
  match m with
  | [] => None
  | (k', v') :: rest => if decide (k' = k) then Some v' else get k rest
  end.

(** Every value sits under its own key. *)
Definition keyed_by (key : V -> string) (m : list (string * V)) : Prop :=
  Forall (fun kv => key kv.2 = kv.1) m.
End JsMap.
End JsMap.

(** ** The download tab *)
Module Downloads.

(** A [File]: its name and bytes.  [file_stream_ok] says whether reading
    [file.stream()] to the end succeeds (a picked file can be moved or
    become unreadable after it was picked). *)
Record File : Type := mkFile {
  file_name : string;
  file_bytes : list byte;
  file_stream_ok : bool
}.

(** [file.size] *)
Definition file_size (f : File) : nat := length (file_bytes f).

(** A handle returned by the file picker; [getFile()] rejects when the
    entry is gone. *)
Record FileHandle : Type := mkHandle { getFile_result : option File }.

(** What [window.showOpenFilePicker] resolves to: the user dismisses the
    dialog (AbortError) or picks some files. *)
Inductive PickerOutcome : Type :=
  | PickerDismissed
  | PickerPicked (picks : list FileHandle).

(** [{name, size}] *)
Record MetaRecord : Type := mkMeta { meta_name : string; meta_size : nat }.

(** [{name, size, url}] *)
Record Video : Type := mkVideo { video_name : string; video_size : nat; video_url : nat }.

(** What a [localStorage] key holds: the JSON text of a list of metadata
    records (what [ls.set] writes under the metadata key), the empty
    string, or text that [JSON.parse] rejects. *)
Inductive Stored : Type :=
  | StoredEmpty
  | StoredGarbage
  | StoredJson (records : list MetaRecord).

Inductive ToastKind : Type := success | warn | info.

(** A snapshot of the two durable stores. *)
Record Durable : Type := mkDurable {
  d_opfs : gmap string (list byte);
  d_localStorage : gmap string Stored
}.

(** The browser state seen by the tab.  [opfs_videos] is the content of
    the OPFS directory [videos]; [next_url] numbers the object URLs handed
    out by [URL.createObjectURL]; [history] is a ghost field that records
    the durable stores after each mutation, newest first. *)
Record World : Type := mkWorld {
  hasOPFS : bool;
  pickerSupported : bool;
  opfs_videos : gmap string (list byte);
  localStorage : gmap string Stored;
  videos : list Video;
  opfsAvailable : bool;
  toasts : list (string * ToastKind);
  next_url : nat;
  history : list Durable
}.

Definition durable (w : World) : Durable :=
  mkDurable (opfs_videos w) (localStorage w).

Definition set_opfs_videos (d : gmap string (list byte)) (w : World) : World :=
  mkWorld (hasOPFS w) (pickerSupported w) d (localStorage w)
          (videos w) (opfsAvailable w) (toasts w) (next_url w)
          (mkDurable d (localStorage w) :: history w).

Definition set_localStorage (l : gmap string Stored) (w : World) : World :=
  mkWorld (hasOPFS w) (pickerSupported w) (opfs_videos w) l
          (videos w) (opfsAvailable w) (toasts w) (next_url w)
          (mkDurable (opfs_videos w) l :: history w).

Definition set_videos (v : list Video) (w : World) : World :=
  mkWorld (hasOPFS w) (pickerSupported w) (opfs_videos w) (localStorage w)
          v (opfsAvailable w) (toasts w) (next_url w) (history w).

Definition set_opfsAvailable (b : bool) (w : World) : World :=
  mkWorld (hasOPFS w) (pickerSupported w) (opfs_videos w) (localStorage w)
          (videos w) b (toasts w) (next_url w) (history w).

Definition push_toast (t : string * ToastKind) (w : World) : World :=
  mkWorld (hasOPFS w) (pickerSupported w) (opfs_videos w) (localStorage w)
          (videos w) (opfsAvailable w) (toasts w ++ [t]) (next_url w) (history w).

Definition bump_url (w : World) : World :=
  mkWorld (hasOPFS w) (pickerSupported w) (opfs_videos w) (localStorage w)
          (videos w) (opfsAvailable w) (toasts w) (S (next_url w)) (history w).

(** *** [ls]: JSON over localStorage *)

(** [ls.get(key, fallback)]: the fallback when the key is absent, when the
    raw text is empty (falsy) and when [JSON.parse] throws. *)
Definition ls_get (key : string) (fallback : list MetaRecord) : M World (list MetaRecord) :=
  gets (fun w =>
    match localStorage w !! key with
    | None => fallback
    | Some StoredEmpty => fallback
    | Some StoredGarbage => fallback
    | Some (StoredJson v) => v
    end).

(** [ls.set(key, val)] *)
Definition ls_set (key : string) (val : list MetaRecord) : M World unit :=
  modify (fun w => set_localStorage (<[key := StoredJson val]> (localStorage w)) w).

Definition DL_VIDS_META_KEY : string := "video_downloads_opfs_meta".

Definition showToast (msg : string) (kind : ToastKind) : M World unit :=
  modify (push_toast (msg, kind)).

Definition setVideos (v : list Video) : M World unit := modify (set_videos v).

Definition setOpfsAvailable (b : bool) : M World unit := modify (set_opfsAvailable b).

(** [URL.createObjectURL(file)]: a URL never handed out before. *)
Definition createObjectURL (file : File) : M World nat :=
  fun w => (Ok (next_url w), bump_url w).

(** *** OPFS helpers.
    [getVideosDir] opens the directory [videos] (creating it), which
    succeeds whenever OPFS exists; the directory's entries are
    [opfs_videos]. *)

(** [dir.getFileHandle(name, {create: true})]: an absent entry is created
    empty. *)
Definition getFileHandle_create (name : string) : M World unit :=
  fun w =>
    match opfs_videos w !! name with
    | Some _ => (Ok tt, w)
    | None => (Ok tt, set_opfs_videos (<[name := []]> (opfs_videos w)) w)
    end.

(** [handle.createWritable()] then [file.stream().pipeTo(writable)]: the
    bytes go to a swap file that replaces the entry when the stream closes;
    when the stream errors the writable is aborted and the entry keeps its
    content. *)
Definition pipeTo (file : File) (name : string) : M World unit :=
  fun w =>
    if file_stream_ok file
    then (Ok tt, set_opfs_videos (<[name := file_bytes file]> (opfs_videos w)) w)
    else (Throw NotReadableError, w).

Definition writeFileToOPFS (file : File) : M World MetaRecord :=
  getFileHandle_create (file_name file) ;;;
  pipeTo file (file_name file) ;;;
  ret (mkMeta (file_name file) (file_size file)).

(** [dir.getFileHandle(name, {create: false})] rejects with NotFoundError
    when there is no such entry; [getFile()] gives the stored bytes. *)
Definition readFileFromOPFS (name : string) : M World File :=
  fun w =>
    match opfs_videos w !! name with
    | Some bytes => (Ok (mkFile name bytes true), w)
    | None => (Throw NotFoundError, w)
    end.

(** [dir.removeEntry(name)] rejects with NotFoundError when there is no
    such entry (File System standard, removeEntry). *)
Definition deleteFromOPFS (name : string) : M World unit :=
  fun w =>
    match opfs_videos w !! name with
    | Some _ => (Ok tt, set_opfs_videos (delete name (opfs_videos w)) w)
    | None => (Throw NotFoundError, w)
    end.

(** *** [TabDownloads] *)

(** The loop that rebuilds the in-memory list, written twice in the
    source (mount effect and [handleAdd]) with the same body: a record
    whose file cannot be read is skipped. *)
Fixpoint rebuild_loop (meta : list MetaRecord) (rebuilt : list Video) : M World (list Video) :=
  match meta with
  | [] => ret rebuilt
  | m :: rest =>
      let* rebuilt' :=
        try_catch
          (let* file := readFileFromOPFS (meta_name m) in
           let* url := createObjectURL file in
           ret (rebuilt ++ [mkVideo (meta_name m)
                                    (nullish (Some (file_size file)) (meta_size m)) url]))
          (fun _ => ret rebuilt) in
      rebuild_loop rest rebuilt'
  end.

(** The effect run once when the tab mounts. *)
Definition mount_effect : M World unit :=
  let* opfs := gets hasOPFS in
  if negb opfs then
    setOpfsAvailable false ;;;
    let* meta := ls_get DL_VIDS_META_KEY [] in
    (if negb (Nat.eqb (length meta) 0)
     then showToast "OPFS not supported here; files won’t persist." warn
     else ret tt) ;;;
    setVideos []
  else
    try_catch
      (let* meta := ls_get DL_VIDS_META_KEY [] in
       let* rebuilt := rebuild_loop meta [] in
       setVideos rebuilt)
      (fun e =>
         setOpfsAvailable false ;;;
         showToast "Could not access OPFS; downloads won’t persist." warn).

(** [window.showOpenFilePicker(...)] *)
Definition showOpenFilePicker (outcome : PickerOutcome) : M World (list FileHandle) :=
  match outcome with
  | PickerDismissed => throw AbortError
  | PickerPicked picks => ret picks
  end.

(** [handle.getFile()] *)
Definition getFile (handle : FileHandle) : M World File :=
  match getFile_result handle with
  | Some file => ret file
  | None => throw NotFoundError
  end.

(** [for (const handle of picks) { ... }] of [handleAdd], threading
    [addedMeta]. *)
Fixpoint add_loop (picks : list FileHandle) (addedMeta : list MetaRecord)
  : M World (list MetaRecord) :=
  match picks with
  | [] => ret addedMeta
  | handle :: rest =>
      let* file := getFile handle in
      let* opfs := gets hasOPFS in
      if opfs then
        writeFileToOPFS file ;;;
        add_loop rest (addedMeta ++ [mkMeta (file_name file) (file_size file)])
      else
        let* url := createObjectURL file in
        modify (fun w => set_videos
                  (videos w ++ [mkVideo (file_name file) (file_size file) url]) w) ;;;
        add_loop rest addedMeta
  end.

(** The metadata merge of [handleAdd]: existing records keyed by name,
    the added ones set over them, the values written back. *)
Definition merge_meta (existing addedMeta : list MetaRecord) : list MetaRecord :=
  let byName := JsMap.of_entries ((fun m => (meta_name m, m)) <$> existing) in
  let byName := foldl (fun acc m => JsMap.set (meta_name m) m acc) byName addedMeta in
  JsMap.values byName.

Definition upsertAll (addedMeta : list MetaRecord) : M World (list MetaRecord) :=
  let* existing := ls_get DL_VIDS_META_KEY [] in
  let merged := merge_meta existing addedMeta in
  ls_set DL_VIDS_META_KEY merged ;;;
  ret merged.

Definition handleAdd (outcome : PickerOutcome) : M World unit :=
  try_catch
    (let* supported := gets pickerSupported in
     if negb supported then
       showToast "This browser can’t open files (no picker)." warn
     else
       let* picks := showOpenFilePicker outcome in
       let* addedMeta := add_loop picks [] in
       let* opfs := gets hasOPFS in
       if opfs && negb (Nat.eqb (length addedMeta) 0) then
         let* merged := upsertAll addedMeta in
         let* rebuilt := rebuild_loop merged [] in
         setVideos rebuilt ;;;
         showToast "Video(s) saved for offline use" success
       else
         showToast "Video(s) added (session-only)" warn)
    (fun e =>
       if negb (String.eqb (exn_name e) "AbortError")
       then showToast "Failed to add video" warn
       else ret tt).

Definition handleRemove (name : string) : M World unit :=
  try_catch
    (let* opfs := gets hasOPFS in
     (if opfs then
        deleteFromOPFS name ;;;
        let* meta := ls_get DL_VIDS_META_KEY [] in
        let remainingMeta := filter (fun m => meta_name m <> name) meta in
        ls_set DL_VIDS_META_KEY remainingMeta
      else ret tt) ;;;
     modify (fun w => set_videos (filter (fun v => video_name v <> name) (videos w)) w) ;;;
     showToast "Removed" info)
    (fun e => showToast "Could not remove" warn).

End Downloads.

(** ** The service worker *)
Module ServiceWorker.

Record Response : Type := mkResponse {
  status : Z;
  statusText : string;
  body : string
}.

(** [response.ok]: the status is in the range 200-299. *)
Definition ok (r : Response) : bool := (200 <=? status r)%Z && (status r <=? 299)%Z.

(** The parts of a [Request] the listener looks at; [url_origin] is
    [new URL(req.url).origin]. *)
Record Request : Type := mkRequest {
  method : string;
  mode : string;
  url : string;
  url_origin : string
}.

(** What the network does with a fetch: the promise rejects, or it
    resolves to a response (of any status). *)
Inductive FetchOutcome : Type :=
  | NetworkError
  | Responds (r : Response).

(** The worker's global scope.  [resolve_url path base] is
    [new URL(path, base).toString()]; [caches] is the origin's
    CacheStorage, a cache name mapped to that cache's entries by request
    URL. *)
Record Worker : Type := mkWorker {
  scope : string;
  location_origin : string;
  resolve_url : string -> string -> string;
  network : string -> FetchOutcome;
  caches : gmap string (gmap string Response);
  skipped_waiting : bool;
  claimed : bool
}.

Definition set_caches (c : gmap string (gmap string Response)) (w : Worker) : Worker :=
  mkWorker (scope w) (location_origin w) (resolve_url w) (network w) c
           (skipped_waiting w) (claimed w).

Definition set_network (n : string -> FetchOutcome) (w : Worker) : Worker :=
  mkWorker (scope w) (location_origin w) (resolve_url w) n (caches w)
           (skipped_waiting w) (claimed w).

(** [self.skipWaiting()] *)
Definition skipWaiting : M Worker unit :=
  modify (fun w => mkWorker (scope w) (location_origin w) (resolve_url w) (network w)
                            (caches w) true (claimed w)).

(** [self.clients.claim()] *)
Definition clients_claim : M Worker unit :=
  modify (fun w => mkWorker (scope w) (location_origin w) (resolve_url w) (network w)
                            (caches w) (skipped_waiting w) true).

Definition CACHE : string := "app-shell-v1".

Definition ASSETS : list string :=
  ["./"; "index.html"; "manifest.json"; "assets/icon-192.png"; "assets/icon-512.png"].

(** [scopeURL(path)]: the path resolved against the worker's scope,
    [self.registration.scope]. *)
Definition scopeURL (w : Worker) (path : string) : string :=
  resolve_url w path (scope w).

(** [fetch(url)]: rejects with a TypeError on a network error. *)
Definition fetch (u : string) : M Worker Response :=
  fun w =>
    match network w u with
    | NetworkError => (Throw TypeError, w)
    | Responds r => (Ok r, w)
    end.

(** [caches.open(name)]: creates the cache when there is none; the result
    stands for the cache object. *)
Definition caches_open (name : string) : M Worker string :=
  fun w =>
    match caches w !! name with
    | Some _ => (Ok name, w)
    | None => (Ok name, set_caches (<[name := ∅]> (caches w)) w)
    end.

(** The key under which a cache files and matches a request URL: the URL
    without its fragment. *)
Fixpoint cache_key (u : string) : string :=
  match u with
  | EmptyString => EmptyString
  | String c rest =>
      if Ascii.eqb c "#" then EmptyString else String c (cache_key rest)
  end.

(** [cache.match(url)]: the fragment of the URL plays no role. *)
Definition cache_match (cache : string) (u : string) : M Worker (option Response) :=
  gets (fun w => caches w !! cache ≫= fun entries => entries !! cache_key u).

(** [cache.put(url, response)]: a partial response (status 206) is
    refused with a TypeError and nothing is stored.  The effect is modelled
    at the call, as soon as the put is started. *)
Definition cache_put (cache : string) (u : string) (r : Response) : M Worker unit :=
  if (status r =? 206)%Z then throw TypeError
  else modify (fun w => set_caches (alter (insert (cache_key u) r) cache (caches w)) w).

(** The fetches of [cache.addAll]: a network error, a response that is not
    ok and a partial response (status 206) reject the whole call with a
    TypeError. *)
Fixpoint fetch_all (urls : list string) : M Worker (list (string * Response)) :=
  match urls with
  | [] => ret []
  | u :: rest =>
      let* r := fetch u in
      if ok r && negb (status r =? 206)%Z then
        let* rs := fetch_all rest in
        ret ((u, r) :: rs)
      else throw TypeError
  end.

(** [cache.addAll(urls)]: nothing is stored unless every fetch succeeded;
    two URLs that the cache files under one key are then refused with an
    InvalidStateError, again storing nothing. *)
Definition cache_addAll (cache : string) (urls : list string) : M Worker unit :=
  let* fetched := fetch_all urls in
  if bool_decide (NoDup (cache_key <$> urls)) then
    modify (fun w =>
      set_caches (alter (fun entries =>
                    foldl (fun acc ur => <[cache_key ur.1 := ur.2]> acc) entries fetched)
                        cache (caches w)) w)
  else throw InvalidStateError.

(** [caches.keys()]; the order of the keys plays no role in the
    listener. *)
Definition caches_keys : M Worker (list string) :=
  gets (fun w => (map_to_list (caches w)).*1).

(** [caches.delete(name)] *)
Definition caches_delete (name : string) : M Worker bool :=
  fun w =>
    match caches w !! name with
    | Some _ => (Ok true, set_caches (delete name (caches w)) w)
    | None => (Ok false, w)
    end.

(** [Promise.all(items.map(f))] *)
Fixpoint promise_all {A B : Type} (f : A -> M Worker B) (items : list A) : M Worker (list B) :=
  match items with
  | [] => ret []
  | x :: rest =>
      let* y := f x in
      let* ys := promise_all f rest in
      ret (y :: ys)
  end.

(** The install listener. *)
Definition install : M Worker unit :=
  let* cache := caches_open CACHE in
  let* urls := gets (fun w => map (scopeURL w) ASSETS) in
  cache_addAll cache urls ;;;
  skipWaiting.

(** The activate listener. *)
Definition activate : M Worker unit :=
  let* keys := caches_keys in
  promise_all
    (fun k => if negb (String.eqb k CACHE)
              then (let* deleted := caches_delete k in ret (Some deleted))
              else ret None)
    keys ;;;
  clients_claim.

(** [new Response("Offline", { status: 503, statusText: "Offline" })] *)
Definition offline_navigation : Response := mkResponse 503 "Offline" "Offline".

(** [new Response("Offline", { status: 503 })] *)
Definition offline_asset : Response := mkResponse 503 "" "Offline".

(** [cached || other] on a response that may be undefined. *)
Definition or_else (cached : option Response) (other : Response) : Response :=
  match cached with Some c => c | None => other end.

(** The navigation branch of the fetch listener.  The put of the fresh
    response is started and not awaited. *)
Definition respond_navigate : M Worker Response :=
  let* cache := caches_open CACHE in
  let* indexURL := gets (fun w => scopeURL w "index.html") in
  let* cached := cache_match cache indexURL in
  try_catch
    (let* fresh := fetch indexURL in
     (if ok fresh then unawaited (cache_put cache indexURL fresh) else ret tt) ;;;
     ret (if ok fresh then fresh else or_else cached fresh))
    (fun _ => ret (or_else cached offline_navigation)).

(** The same-origin branch of the fetch listener. *)
Definition respond_same_origin (req : Request) : M Worker Response :=
  let* cache := caches_open CACHE in
  let* cached := cache_match cache (url req) in
  match cached with
  | Some c => ret c
  | None =>
      try_catch
        (let* fresh := fetch (url req) in
         (if ok fresh then unawaited (cache_put cache (url req) fresh) else ret tt) ;;;
         ret fresh)
        (fun _ => ret (or_else cached offline_asset))
  end.

(** The fetch listener: [None] when the listener returns without calling
    [respondWith] (the request goes to the network untouched), otherwise
    the outcome of the promise given to [respondWith]. *)
Definition on_fetch (req : Request) (w : Worker) : option (Result Response * Worker) :=
  if negb (String.eqb (method req) "GET") then None
  else if String.eqb (mode req) "navigate" then Some (respond_navigate w)
  else if String.eqb (url_origin req) (location_origin w) then Some (respond_same_origin req w)
  else None.

End ServiceWorker.

(** ** Vocabulary for the download tab: derived notions, the claims as the
    specification words them, and example states *)
Module DownloadsSpec.
Import Downloads.

(** The Metadata Index held by a localStorage: what
    [ls.get(DL_VIDS_META_KEY, [])] reads from it. *)
Definition index_of (l : gmap string Stored) : list MetaRecord :=
  match l !! DL_VIDS_META_KEY with
  | Some (StoredJson v) => v
  | _ => []
  end.

(** The world with the object URL counter moved to [n]. *)
Definition with_next_url (n : nat) (w : World) : World :=
  mkWorld (hasOPFS w) (pickerSupported w) (opfs_videos w) (localStorage w)
          (videos w) (opfsAvailable w) (toasts w) n (history w).

(** The list the rebuild loop produces from the records [meta] over the
    directory [dir], handing out object URLs from [n] on. *)
Fixpoint rebuilt_from (dir : gmap string (list byte)) (meta : list MetaRecord) (n : nat)
  : list Video :=
  match meta with
  | [] => []
  | m :: rest =>
      match dir !! meta_name m with
      | Some bytes => mkVideo (meta_name m) (length bytes) n :: rebuilt_from dir rest (S n)
      | None => rebuilt_from dir rest n
      end
  end.

(** A Blob Store read of [name] succeeds in [w]. *)
Definition read_succeeds (w : World) (name : string) : bool :=
  is_ok (readFileFromOPFS name w).1.

Definition bytes_of (s : string) : list byte := String.list_byte_of_string s.

Definition example_world (dir : gmap string (list byte)) (meta : list MetaRecord)
    (listed : list Video) : World :=
  mkWorld true true dir {[ DL_VIDS_META_KEY := StoredJson meta ]} listed true [] 7 [].

Definition three_records : list MetaRecord :=
  [mkMeta "a.mp4" 3; mkMeta "b.mp4" 5; mkMeta "c.mp4" 2].

(** [b.mp4] is listed in the index, its file is gone. *)
Definition two_files : gmap string (list byte) :=
  {[ "a.mp4" := bytes_of "aaa"; "c.mp4" := bytes_of "cc" ]}.

(** C2, as stated: deleting an absent name is a silent no-op, and
    [handleRemove] reports success when the stored file was already
    gone. *)
Definition delete_absent_is_noop : Prop :=
  ∀ (w : World) (name : string),
    opfs_videos w !! name = None → deleteFromOPFS name w = (Ok tt, w).

Definition remove_succeeds_when_gone : Prop :=
  ∀ (w : World) (name : string),
    hasOPFS w = true → opfs_videos w !! name = None →
    toasts (handleRemove name w).2 = toasts w ++ [("Removed", info)].

(** [a.mp4] is listed and shown, but its file has been evicted. *)
Definition evicted_world : World :=
  example_world ∅ [mkMeta "a.mp4" 3] [mkVideo "a.mp4" 3 0].

(** A picker handle whose [getFile()] resolves to [f]. *)
Definition good_handle (f : File) : FileHandle := mkHandle (Some f).

(** The record [handleAdd] accumulates for a file. *)
Definition meta_of (f : File) : MetaRecord := mkMeta (file_name f) (file_size f).

(** The files behind the picked handles. *)
Definition picked_files (outcome : PickerOutcome) : list File :=
  match outcome with
  | PickerDismissed => []
  | PickerPicked picks => omap getFile_result picks
  end.

(** Persisting this pick fails: the handle's file is gone, or its stream
    errors. *)
Definition pick_fails (handle : FileHandle) : Prop :=
  match getFile_result handle with
  | None => True
  | Some f => file_stream_ok f = false
  end.

(** The directory after the files were written one after the other. *)
Definition written (files : list File) (dir : gmap string (list byte))
  : gmap string (list byte) :=
  foldl (fun d f => <[file_name f := file_bytes f]> d) dir files.

(** [w'] is [w] after Blob Store mutations only: the index and the rest
    of the state are untouched, and every durable snapshot recorded in
    between still carries the index of [w]. *)
Record write_phase (w w' : World) : Prop := mkWritePhase {
  wp_hasOPFS : hasOPFS w' = hasOPFS w;
  wp_picker : pickerSupported w' = pickerSupported w;
  wp_localStorage : localStorage w' = localStorage w;
  wp_videos : videos w' = videos w;
  wp_opfsAvailable : opfsAvailable w' = opfsAvailable w;
  wp_toasts : toasts w' = toasts w;
  wp_next_url : next_url w' = next_url w;
  wp_history : ∃ new, history w' = new ++ history w ∧
                      ∀ s, s ∈ new → d_localStorage s = localStorage w
}.

(** C1, as stated: at every durable state an import goes through, a name
    of this import that the Metadata Index lists has the bytes of a picked
    file of that name in the Blob Store. *)
Definition listed_imports_are_written : Prop :=
  ∀ (w : World) (outcome : PickerOutcome) (new : list Durable) (s : Durable) (f : File),
    history (handleAdd outcome w).2 = new ++ history w →
    s ∈ new → f ∈ picked_files outcome →
    file_name f ∈ meta_name <$> index_of (d_localStorage s) →
    ∃ f', f' ∈ picked_files outcome ∧ file_name f' = file_name f ∧
          d_opfs s !! file_name f = Some (file_bytes f').

(** An index that lists [a.mp4], whose file is gone, and a new [a.mp4]. *)
Definition stale_index_world : World := example_world ∅ [mkMeta "a.mp4" 3] [].
Definition new_a : File := mkFile "a.mp4" (bytes_of "abc") true.

(** C8, as stated (first half): when one file of an import fails, every
    other picked file is persisted. *)
Definition other_files_persist : Prop :=
  ∀ (w : World) (picks : list FileHandle) (bad : FileHandle) (f : File),
    hasOPFS w = true → pickerSupported w = true →
    bad ∈ picks → pick_fails bad →
    good_handle f ∈ picks → file_stream_ok f = true →
    opfs_videos (handleAdd (PickerPicked picks) w).2 !! file_name f = Some (file_bytes f).

Definition unreadable_x : File := mkFile "x.mp4" (bytes_of "xxxx") false.
Definition readable_y : File := mkFile "y.mp4" (bytes_of "yy") true.
Definition readable_z : File := mkFile "z.mp4" (bytes_of "z") true.

End DownloadsSpec.

(** ** Vocabulary for the service worker *)
Module ServiceWorkerSpec.
Import ServiceWorker.

(** The URL of the shell document, [scopeURL("index.html")]. *)
Definition indexURL (w : Worker) : string := scopeURL w "index.html".

(** The entry the current generation's cache matches for a URL. *)
Definition cached_at (w : Worker) (u : string) : option Response :=
  caches w !! CACHE ≫= fun entries => entries !! cache_key u.

(** Total network failure: every fetch rejects. *)
Definition offline (w : Worker) : Worker := set_network (fun _ => NetworkError) w.

(** The worker after [caches.open(CACHE)]. *)
Definition opened (w : Worker) : Worker := (caches_open CACHE w).2.

(** The worker after an unawaited [cache.put(u, r)] on the current
    generation. *)
Definition stored (u : string) (r : Response) (w : Worker) : Worker :=
  (cache_put CACHE u r w).2.

(** The response is one the cache accepts from the listener: ok and not
    partial. *)
Definition storable (r : Response) : bool := ok r && negb (status r =? 206)%Z.



Definition example_resolve (path base : string) : string := String.append base path.

Definition example_worker (net : string → FetchOutcome)
    (cs : gmap string (gmap string Response)) : Worker :=
  mkWorker "https://app.example/" "https://app.example" example_resolve net cs false false.

Definition shell_v1 : Response := mkResponse 200 "OK" "<html>shell v1</html>".
Definition shell_v2 : Response := mkResponse 200 "OK" "<html>shell v2</html>".
Definition not_found : Response := mkResponse 404 "Not Found" "no such page".
Definition script_js : Response := mkResponse 200 "OK" "console.log(1)".

Definition shell_cache : gmap string (gmap string Response) :=
  {[ CACHE := {[ "https://app.example/index.html" := shell_v1 ]} ]}.

Definition watch_request : Request :=
  mkRequest "GET" "navigate" "https://app.example/watch/42" "https://app.example".

Definition script_request : Request :=
  mkRequest "GET" "no-cors" "https://app.example/static/main.js" "https://app.example".



(** The first bytes of the script, as a range of it. *)
Definition partial_js : Response := mkResponse 206 "Partial Content" "console.".

(** C10, as stated: every intercepted navigation is answered with the
    shell document, fetched or read from the cache. *)
Definition navigation_always_shell : Prop :=
  ∀ (w : Worker) (req : Request),
    method req = "GET" → mode req = "navigate" →
    ∃ resp w', on_fetch req w = Some (Ok resp, w') ∧
      (network w (indexURL w) = Responds resp ∨ cached_at w (indexURL w) = Some resp).

(** The generations that [caches.keys()] enumerates. *)
Definition generations (w : Worker) : list string := (map_to_list (caches w)).*1.

(** What the activate listener does with one key. *)
Definition sweep (k : string) : M Worker (option bool) :=
  if negb (String.eqb k CACHE)
  then (let* deleted := caches_delete k in ret (Some deleted))
  else ret None.

Definition old_and_current : gmap string (gmap string Response) :=
  <[ "app-shell-v0" := {[ "https://app.example/index.html" := shell_v1 ]} ]>
    (<[ "other-cache" := ∅ ]> shell_cache).

End ServiceWorkerSpec.

(** ** Vocabulary for the worker's life cycle *)
Module LifecycleSpec.
Import ServiceWorker ServiceWorkerSpec.

(** The URLs the install listener hands to [cache.addAll]. *)
Definition shell_urls (w : Worker) : list string := map (scopeURL w) ASSETS.

(** The network answers the URL with a response the cache accepts: ok
    and not partial. *)
Definition served (w : Worker) (u : string) : Prop :=
  ∃ r, network w u = Responds r ∧ storable r = true.

(** The fetch of the URL rejects or is answered with a status that is
    not ok. *)
Definition refused (w : Worker) (u : string) : Prop :=
  network w u = NetworkError ∨ ∃ r, network w u = Responds r ∧ ok r = false.

(** A network that answers every shell asset with the same page except
    the manifest, which is missing. *)
Definition manifest_missing (u : string) : FetchOutcome :=
  if String.eqb u "https://app.example/manifest.json"
  then Responds not_found else Responds shell_v1.

(** Two workers see the same scope, origin, URL resolution and network. *)
Definition same_env (w w' : Worker) : Prop :=
  scope w' = scope w ∧ location_origin w' = location_origin w ∧
  resolve_url w' = resolve_url w ∧ network w' = network w.

Definition post_request : Request :=
  mkRequest "POST" "cors" "https://app.example/api" "https://app.example".

End LifecycleSpec.

(** ** Vocabulary for the flows of the download tab *)
Module FlowsSpec.
Import Downloads DownloadsSpec.

(** What the card of a listed video shows: its name and its size. *)
Definition listing (vs : list Video) : list (string * nat) :=
  (fun v => (video_name v, video_size v)) <$> vs.

(** The cards of the records of [meta] whose file is in [dir], with the
    size of the file. *)
Definition listing_of (dir : gmap string (list byte)) (meta : list MetaRecord)
  : list (string * nat) :=
  omap (fun m => (fun bytes => (meta_name m, length bytes)) <$> dir !! meta_name m) meta.

(** The entries the session-only fallback appends for the picked files,
    with object URLs from [n] on. *)
Fixpoint session_videos (files : list File) (n : nat) : list Video :=
  match files with
  | [] => []
  | f :: rest => mkVideo (file_name f) (file_size f) n :: session_videos rest (S n)
  end.

(** A browser without OPFS. *)
Definition session_world : World :=
  mkWorld false true ∅ ∅ [] false [] 0 [].

End FlowsSpec.

(** ** The saved channels of the Video Home tab *)
Module Channels.
Import Downloads.

(** [{name, url}] *)
Record Channel : Type := mkChannel { channel_name : string; channel_url : string }.

(** [s.includes(sub)] *)
Fixpoint includes (sub s : string) : bool :=
  String.prefix sub s ||
  match s with
  | EmptyString => false
  | String _ s' => includes sub s'
  end.

(** [s.split(sep)] for a one-character separator: never empty. *)
Fixpoint split_on (sep : Ascii.ascii) (s : string) : list string :=
  match s with
  | EmptyString => [EmptyString]
  | String c s' =>
      if Ascii.eqb c sep then EmptyString :: split_on sep s'
      else match split_on sep s' with
           | [] => [String c EmptyString]
           | seg :: rest => String c seg :: rest
           end
  end.

(** [s.replace(c, "")] for a one-character pattern: the first occurrence
    goes. *)
Fixpoint remove_first (c : Ascii.ascii) (s : string) : string :=
  match s with
  | EmptyString => EmptyString
  | String d s' => if Ascii.eqb d c then s' else String d (remove_first c s')
  end.

(** [url.split("/").pop().replace("@", "")] *)
Definition name_of (url : string) : string :=
  remove_first "@"%char (default EmptyString (last (split_on "/"%char url))).

(** [channels.filter((_, i) => i !== idx)], the elements counted from
    [i]. *)
Fixpoint filter_index_ne (idx i : nat) (l : list Channel) : list Channel :=
  match l with
  | [] => []
  | c :: rest =>
      if Nat.eqb i idx then filter_index_ne idx (S i) rest
      else c :: filter_index_ne idx (S i) rest
  end.

(** The state of the tab: the text of the URL box, the saved channels and
    the toasts shown. *)
Record Home : Type := mkHome {
  channelUrl : string;
  channels : list Channel;
  home_toasts : list (string * ToastKind)
}.

Definition home_toast (t : string * ToastKind) (h : Home) : Home :=
  mkHome (channelUrl h) (channels h) (home_toasts h ++ [t]).

Section Platform.
(** [String.prototype.trim] and [String.prototype.localeCompare] are the
    browser's. *)
Variable trim : string -> string.
Variable localeCompare : string -> string -> Z.

(** [next.sort((a, b) => a.name.localeCompare(b.name))].  The sort of an
    array is stable, so for a consistent comparator its result is the one of
    a stable insertion sort. *)
Fixpoint insert_by_name (c : Channel) (l : list Channel) : list Channel :=
  match l with
  | [] => [c]
  | d :: rest =>
      if (localeCompare (channel_name c) (channel_name d) <? 0)%Z
      then c :: d :: rest
      else d :: insert_by_name c rest
  end.

Definition sort_by_name (l : list Channel) : list Channel :=
  foldl (fun acc c => insert_by_name c acc) [] l.

Definition addChannel (h : Home) : Home :=
  let url := trim (channelUrl h) in
  if String.eqb url "" || negb (includes "youtube.com" url) then
    home_toast ("Enter a valid YouTube channel URL", warn) h
  else
    let name := name_of url in
    if existsb (fun c => String.eqb (channel_url c) url) (channels h) then
      mkHome "" (channels h) (home_toasts h ++ [("Already saved", warn)])
    else
      let next := sort_by_name (channels h ++ [mkChannel name url]) in
      mkHome "" next (home_toasts h ++ [("Channel saved", success)]).

Definition removeChannel (idx : nat) (h : Home) : Home :=
  let next := filter_index_ne idx 0 (channels h) in
  mkHome (channelUrl h) next (home_toasts h ++ [("Removed", info)]).
End Platform.

(** The saved channels are well formed: no URL is saved twice and every
    saved URL mentions [youtube.com]. *)
Definition well_formed (l : list Channel) : Prop :=
  NoDup (channel_url <$> l) ∧
  Forall (fun c => includes "youtube.com" (channel_url c) = true) l.

(** [a] is not after [b] for the comparator. *)
Definition name_le (localeCompare : string -> string -> Z) (a b : Channel) : Prop :=
  (localeCompare (channel_name a) (channel_name b) <= 0)%Z.

(** A comparator for the examples: shorter names first. *)
Definition by_length (a b : string) : Z :=
  (Z.of_nat (String.length a) - Z.of_nat (String.length b))%Z.

Definition example_home : Home :=
  mkHome "https://www.youtube.com/@zed"
         [mkChannel "veritasium" "https://www.youtube.com/@veritasium"] [].

End Channels.

(** ** The tab bar of the application: swipe navigation *)
Module Tabs.

(** The ids of [tabs], in order. *)
Definition tab_ids : list string := ["scrape"; "home"; "downloads"].

(** [ids.findIndex(id => id === tab)] counted from [i]: -1 when there is
    none. *)
Fixpoint findIndex_from (tab : string) (ids : list string) (i : Z) : Z :=
  match ids with
  | [] => (-1)%Z
  | id :: rest => if String.eqb id tab then i else findIndex_from tab rest (i + 1)%Z
  end.

(** [tabs.findIndex((t) => t.id === tab)] *)
Definition findIndex (tab : string) : Z := findIndex_from tab tab_ids 0.

(** [tabs[i].id]: reading a property of [undefined] throws. *)
Definition tab_at (i : Z) : Result string :=
  if (i <? 0)%Z then Throw TypeError
  else match tab_ids !! Z.to_nat i with
       | Some id => Ok id
       | None => Throw TypeError
       end.

(** [const ActiveComp = tabs[activeIdx].comp], the component named by its
    tab. *)
Definition activeComp (tab : string) : Result string := tab_at (findIndex tab).

Section Numbers.
(** Touch coordinates are the browser's numbers; their arithmetic is taken
    as given. *)
Variable num : Type.
Variable num_sub : num -> num -> num.
Variable num_abs : num -> num.
Variable num_lt : num -> num -> bool.
Variable num_gt : num -> num -> bool.
Variable zero : num.
Variable fifty : num.

(** The state of [App] the handlers use: the active tab and
    [touchStartX.current]. *)
Record App : Type := mkApp { tab : string; touchStartX : option num }.

Definition setTab (id : string) : M App unit :=
  modify (fun a => mkApp id (touchStartX a)).

(** [handleTouchStart], with [e.touches[0].clientX]. *)
Definition handleTouchStart (clientX : num) : M App unit :=
  modify (fun a => mkApp (tab a) (Some clientX)).

(** [handleTouchEnd], with [e.changedTouches[0].clientX].  The index is
    computed once, from the tab the handler was rendered with. *)
Definition handleTouchEnd (clientX : num) : M App unit :=
  let* start := gets touchStartX in
  match start with
  | None => ret tt
  | Some x0 =>
      let dx := num_sub clientX x0 in
      (if num_gt (num_abs dx) fifty then
         let* current := gets tab in
         let idx := findIndex current in
         (if num_lt dx zero && (idx <? Z.of_nat (length tab_ids) - 1)%Z
          then fun a => match tab_at (idx + 1) with
                        | Ok id => setTab id a
                        | Throw e => (Throw e, a)
                        end
          else ret tt) ;;;
         (if num_gt dx zero && (idx >? 0)%Z
          then fun a => match tab_at (idx - 1) with
                        | Ok id => setTab id a
                        | Throw e => (Throw e, a)
                        end
          else ret tt)
       else ret tt) ;;;
      modify (fun a => mkApp (tab a) None)
  end.

(** What the user does to the tab bar. *)
Inductive Gesture : Type :=
  | TouchStart (clientX : num)
  | TouchEnd (clientX : num)
  | ClickTab (i : nat).

(** The handler of a gesture; a click is on the button of [tabs[i]]. *)
Definition handle (g : Gesture) : M App unit :=
  match g with
  | TouchStart x => handleTouchStart x
  | TouchEnd x => handleTouchEnd x
  | ClickTab i =>
      match tab_ids !! i with
      | Some id => setTab id
      | None => ret tt
      end
  end.

(** The handlers of a sequence of gestures, one after the other. *)
Fixpoint handle_all (gs : list Gesture) : M App unit :=
  match gs with
  | [] => ret tt
  | g :: rest => handle g ;;; handle_all rest
  end.
End Numbers.

End Tabs.

(** * Properties of the service worker *)
Module ServiceWorkerProofs.
Import ServiceWorker ServiceWorkerSpec.

Lemma caches_open_eq w : caches_open CACHE w = (Ok CACHE, opened w).
Proof. unfold opened, caches_open. by destruct (caches w !! CACHE). Qed.

Lemma opened_is_Some w : is_Some (caches (opened w) !! CACHE).
Proof.
  unfold opened, caches_open. destruct (caches w !! CACHE) eqn:E; simpl.
  - by rewrite E.
  - rewrite lookup_insert_eq. eauto.
Qed.

Lemma opened_cached_at w u : cached_at (opened w) u = cached_at w u.
Proof.
  unfold cached_at, opened, caches_open. destruct (caches w !! CACHE) eqn:E; simpl.
  - by rewrite E.
  - by rewrite lookup_insert_eq.
Qed.

Lemma opened_env w :
  network (opened w) = network w ∧ scope (opened w) = scope w ∧
  resolve_url (opened w) = resolve_url w ∧ location_origin (opened w) = location_origin w.
Proof. unfold opened, caches_open. by destruct (caches w !! CACHE). Qed.

Lemma opened_indexURL w : indexURL (opened w) = indexURL w.
Proof. unfold indexURL, scopeURL. destruct (opened_env w) as (_ & -> & -> & _). done. Qed.

Lemma stored_partial w u r : status r = 206%Z → stored u r w = w.
Proof. intros Hs. unfold stored, cache_put. by rewrite Hs. Qed.

Lemma stored_whole w u r :
  status r ≠ 206%Z →
  stored u r w = set_caches (alter (insert (cache_key u) r) CACHE (caches w)) w.
Proof.
  intros Hs. unfold stored, cache_put.
  by destruct (Z.eqb_spec (status r) 206).
Qed.

Lemma stored_cached_at w u r :
  is_Some (caches w !! CACHE) → status r ≠ 206%Z → cached_at (stored u r w) u = Some r.
Proof.
  intros [e He] Hs. rewrite stored_whole by done. unfold cached_at. simpl.
  rewrite lookup_alter_eq, He. simpl. apply lookup_insert_eq.
Qed.

(** The navigation branch, case by case on the network and the cache. *)
Lemma respond_navigate_eq w :
  respond_navigate w =
    match network w (indexURL w) with
    | Responds fresh =>
        if ok fresh
        then (Ok fresh, stored (indexURL w) fresh (opened w))
        else (Ok (or_else (cached_at w (indexURL w)) fresh), opened w)
    | NetworkError =>
        (Ok (or_else (cached_at w (indexURL w)) offline_navigation), opened w)
    end.
Proof.
  rewrite <- (opened_cached_at w), <- (opened_indexURL w).
  destruct (opened_env w) as (<- & _).
  unfold respond_navigate, bind. rewrite caches_open_eq.
  unfold gets, cache_match, try_catch, fetch, cached_at, indexURL. simpl.
  destruct (network (opened w) _) as [|fresh]; [done|].
  destruct (ok fresh); done.
Qed.

(** The same-origin branch, case by case on the cache and the network. *)
Lemma respond_same_origin_eq w req :
  respond_same_origin req w =
    match cached_at w (url req) with
    | Some c => (Ok c, opened w)
    | None =>
        match network w (url req) with
        | Responds fresh =>
            (Ok fresh, if ok fresh then stored (url req) fresh (opened w) else opened w)
        | NetworkError => (Ok offline_asset, opened w)
        end
    end.
Proof.
  rewrite <- (opened_cached_at w).
  destruct (opened_env w) as (<- & _).
  unfold respond_same_origin, bind. rewrite caches_open_eq.
  unfold gets, cache_match, try_catch, fetch, cached_at. simpl.
  destruct (caches (opened w) !! CACHE ≫= _) as [c|]; [done|].
  destruct (network (opened w) _) as [|fresh]; [done|].
  destruct (ok fresh); done.
Qed.

Lemma on_fetch_navigate w req :
  method req = "GET" → mode req = "navigate" →
  on_fetch req w = Some (respond_navigate w).
Proof. intros Hm Hn. unfold on_fetch. by rewrite Hm, Hn. Qed.


(** *** Navigation requests *)




(** C10 (counterexample): the network is down and nothing is cached; the
    navigation to [/watch/42] is answered with the synthesized offline
    response, which is neither a fetched nor a cached shell document. *)
Lemma navigate_offline_uncached_counterexample :
  let w := example_worker (fun _ => NetworkError) ∅ in
  (∃ w', on_fetch watch_request w = Some (Ok offline_navigation, w')) ∧
  network w (indexURL w) = NetworkError ∧
  cached_at w (indexURL w) = None ∧
  ¬ navigation_always_shell.
Proof.
  set (w0 := example_worker (fun _ => NetworkError) ∅). simpl.
  split; [eexists; reflexivity|]. split; [reflexivity|]. split; [reflexivity|].
  intros H. destruct (H w0 watch_request eq_refl eq_refl) as (resp & w' & Hr & [Hn|Hc]).
  - discriminate Hn.
  - discriminate Hc.
Qed.

(** C10 (amended): the answer to an intercepted navigation does not depend
    on the URL navigated to: it is the answer of the network for the shell
    document, the cached shell document, or, when neither is available,
    the synthesized offline response. *)
Theorem navigation_ignores_requested_url (w : Worker) (req req' : Request) :
  method req = "GET" → mode req = "navigate" →
  method req' = "GET" → mode req' = "navigate" →
  on_fetch req w = on_fetch req' w ∧
  ∃ resp w', on_fetch req w = Some (Ok resp, w') ∧
    (network w (indexURL w) = Responds resp ∨
     cached_at w (indexURL w) = Some resp ∨
     (resp = offline_navigation ∧ network w (indexURL w) = NetworkError ∧
      cached_at w (indexURL w) = None)).
Proof.
  intros Hm Hn Hm' Hn'.
  rewrite (on_fetch_navigate w req Hm Hn), (on_fetch_navigate w req' Hm' Hn').
  split; [done|]. rewrite respond_navigate_eq.
  destruct (network w (indexURL w)) as [|fresh] eqn:Hnet.
  - destruct (cached_at w (indexURL w)) as [c|] eqn:Hc; simpl; eauto 10.
  - destruct (ok fresh); [eauto|].
    destruct (cached_at w (indexURL w)) as [c|] eqn:Hc; simpl; eauto 10.
Qed.

Lemma navigation_ignores_requested_url_witness :
  on_fetch watch_request (example_worker (fun _ => NetworkError) shell_cache) =
  on_fetch (mkRequest "GET" "navigate" "https://app.example/" "https://app.example")
           (example_worker (fun _ => NetworkError) shell_cache).
Proof.
  apply (navigation_ignores_requested_url
           (example_worker (fun _ => NetworkError) shell_cache) watch_request
           (mkRequest "GET" "navigate" "https://app.example/" "https://app.example"));
    reflexivity.
Defined.

(** *** Same-origin requests *)

Lemma stored_cached_at_opened w u r :
  status r ≠ 206%Z → cached_at (stored u r (opened w)) u = Some r.
Proof. intros Hs. apply stored_cached_at; [apply opened_is_Some|done]. Qed.




(** *** Cache generations *)

Lemma sweep_spec k w :
  ∃ r w', sweep k w = (Ok r, w') ∧
    caches w' = (if decide (k = CACHE) then caches w else delete k (caches w)).
Proof.
  unfold sweep. destruct (String.eqb_spec k CACHE) as [->|Hne].
  - rewrite decide_True by done. by eexists _, _.
  - rewrite decide_False by done. unfold negb, bind, caches_delete.
    destruct (caches w !! k) eqn:E.
    + by eexists _, _.
    + eexists _, _. split; [reflexivity|]. by rewrite delete_id.
Qed.

Lemma sweep_all ks : ∀ w,
  ∃ rs w', promise_all sweep ks w = (Ok rs, w') ∧
    ∀ k, caches w' !! k =
         (if decide (k ∈ ks ∧ k ≠ CACHE) then None else caches w !! k).
Proof.
  induction ks as [|k0 ks IH]; intros w.
  - exists [], w. split; [done|]. intros k. rewrite decide_False; [done|].
    intros [H _]. by apply not_elem_of_nil in H.
  - destruct (sweep_spec k0 w) as (r & w1 & Hs & Hc).
    destruct (IH w1) as (rs & w2 & Hp & Hk).
    exists (r :: rs), w2. split.
    + simpl. unfold bind at 1. rewrite Hs. unfold bind at 1. by rewrite Hp.
    + intros k. rewrite Hk, Hc.
      destruct (decide (k ∈ ks ∧ k ≠ CACHE)) as [[Hin Hne]|Hno].
      * rewrite decide_True; [done|]. split; [by right|done].
      * destruct (decide (k0 = CACHE)) as [->|Hne0].
        -- destruct (decide (k ∈ CACHE :: ks ∧ k ≠ CACHE)) as [[Hin Hne]|?]; [|done].
           apply elem_of_cons in Hin as [?|Hin]; [done|]. by destruct Hno.
        -- destruct (decide (k = k0)) as [->|Hkk].
           ++ rewrite lookup_delete_eq, decide_True; [done|]. split; [by left|done].
           ++ rewrite lookup_delete_ne by done.
              rewrite decide_False; [done|]. intros [Hin Hne].
              apply elem_of_cons in Hin as [?|Hin]; [done|]. by destruct Hno.
Qed.

Lemma activate_spec w :
  ∃ w', activate w = (Ok tt, w') ∧
    ∀ k, caches w' !! k = (if decide (k = CACHE) then caches w !! CACHE else None).
Proof.
  destruct (sweep_all (generations w) w) as (rs & w1 & Hp & Hk).
  eexists. split.
  - change (activate w) with ((promise_all sweep (generations w) ;;; clients_claim) w).
    unfold bind. rewrite Hp. reflexivity.
  - intros k. simpl. rewrite Hk.
    destruct (decide (k = CACHE)) as [->|Hne].
    + rewrite decide_False; [done|]. by intros [_ ?].
    + destruct (caches w !! k) as [c|] eqn:E.
      * rewrite decide_True; [done|]. split; [|done].
        unfold generations. apply list_elem_of_fmap. exists (k, c).
        split; [done|]. by apply elem_of_map_to_list.
      * by destruct (decide _).
Qed.

Lemma generations_only_current w :
  (∀ k, k ≠ CACHE → caches w !! k = None) → is_Some (caches w !! CACHE) →
  generations w = [CACHE].
Proof.
  intros Hothers [c Hc].
  assert (caches w = {[ CACHE := c ]}) as Heq.
  { apply map_eq. intros k. destruct (decide (k = CACHE)) as [->|Hne].
    - by rewrite lookup_singleton_eq.
    - rewrite lookup_singleton_ne by done. by apply Hothers. }
  unfold generations. rewrite Heq, map_to_list_singleton. done.
Qed.

Lemma fetch_all_state urls : ∀ w, (fetch_all urls w).2 = w.
Proof.
  induction urls as [|u urls IH]; intros w; [done|].
  simpl. unfold bind, fetch. destruct (network w u) as [|r]; [done|].
  destruct (ok r && negb (status r =? 206)%Z); [|done].
  specialize (IH w). destruct (fetch_all urls w) as [[rs|e] w']; simpl in *; by subst.
Qed.

(** With every shell asset answered, installation fills the current
    generation with the five scope-resolved URLs; one asset missing rejects
    the installation and stores nothing. *)
Example install_fills_shell :
  let w := example_worker (fun _ => Responds shell_v1) ∅ in
  (install w).1 = Ok tt ∧
  (dom <$> caches (install w).2 !! CACHE) =
    Some (list_to_set ((fun p => String.append "https://app.example/" p) <$> ASSETS)).
Proof. split; [reflexivity|]. vm_compute. reflexivity. Qed.

Example install_all_or_nothing :
  let net u := if String.eqb u "https://app.example/manifest.json"
               then Responds not_found else Responds shell_v1 in
  let w := example_worker net ∅ in
  (install w).1 = Throw TypeError ∧ caches (install w).2 !! CACHE = Some ∅.
Proof. split; reflexivity. Qed.

(** Whether it succeeds or not, installation leaves the current
    generation in the CacheStorage. *)
Lemma install_creates_current w : is_Some (caches (install w).2 !! CACHE).
Proof.
  unfold install, bind. rewrite caches_open_eq.
  unfold gets, cache_addAll, bind.
  pose proof (fetch_all_state (map (scopeURL (opened w)) ASSETS) (opened w)) as Hf.
  destruct (fetch_all _ (opened w)) as [[rs|e] w1]; simpl in Hf; subst w1;
    [|apply opened_is_Some].
  destruct (bool_decide _); [|apply opened_is_Some].
  simpl. rewrite lookup_alter_eq.
  destruct (opened_is_Some w) as [c ->]. simpl. eauto.
Qed.

(** C6: activation succeeds, deletes every generation whose tag is not
    the current one and leaves the current one untouched; when the current
    generation exists at activation, as it does after the install listener
    has run on any CacheStorage, the current generation is the one
    generation left to enumerate. *)
Theorem activate_keeps_only_current (w : Worker) :
  (activate w).1 = Ok tt ∧
  (∀ k, k ≠ CACHE → caches (activate w).2 !! k = None) ∧
  caches (activate w).2 !! CACHE = caches w !! CACHE ∧
  (is_Some (caches w !! CACHE) → generations (activate w).2 = [CACHE]) ∧
  generations (activate (install w).2).2 = [CACHE].
Proof.
  assert (Hgen : ∀ v, is_Some (caches v !! CACHE) → generations (activate v).2 = [CACHE]).
  { intros v Hv. destruct (activate_spec v) as (v' & -> & Hk). simpl.
    apply generations_only_current.
    - intros k Hne. by rewrite Hk, decide_False.
    - by rewrite Hk, decide_True. }
  destruct (activate_spec w) as (w' & Ha & Hk). rewrite Ha. simpl.
  split; [done|]. split; [|split; [|split]].
  - intros k Hne. by rewrite Hk, decide_False.
  - by rewrite Hk, decide_True.
  - intros Hc. specialize (Hgen w Hc). by rewrite Ha in Hgen.
  - apply Hgen, install_creates_current.
Qed.

Lemma activate_keeps_only_current_witness :
  is_Some (caches (example_worker (fun _ => NetworkError) old_and_current) !! CACHE) ∧
  generations (activate (example_worker (fun _ => NetworkError) old_and_current)).2 = [CACHE].
Proof.
  assert (H : is_Some (caches (example_worker (fun _ => NetworkError) old_and_current) !! CACHE)).
  { exists {[ "https://app.example/index.html" := shell_v1 ]}. reflexivity. }
  split; [exact H|].
  apply (proj1 (proj2 (proj2 (proj2
    (activate_keeps_only_current (example_worker (fun _ => NetworkError) old_and_current))))) H).
Defined.

End ServiceWorkerProofs.

(** * Laws of the monad *)
Section AsyncLaws.
Context {S A B C : Type}.

Lemma bind_assoc (m : M S A) (k : A → M S B) (h : B → M S C) (w : S) :
  bind (bind m k) h w = bind m (fun a => bind (k a) h) w.
Proof. unfold bind. by destruct (m w) as [[a|e] w']. Qed.

Lemma bind_ext (m : M S A) (k k' : A → M S B) (w : S) :
  (∀ a w', k a w' = k' a w') → bind m k w = bind m k' w.
Proof. intros Hk. unfold bind. by destruct (m w) as [[a|e] w']. Qed.
End AsyncLaws.

(** * Properties of insertion-ordered maps *)
Module JsMapProofs.
Section JsMapProofs.
Context {V : Type}.
Implicit Types (m : list (string * V)) (k : string) (v : V).

Lemma get_set_eq k v m : JsMap.get k (JsMap.set k v m) = Some v.
Proof.
  induction m as [|[k' v'] m IH]; simpl.
  - by rewrite decide_True.
  - destruct (decide (k' = k)) as [->|Hne]; simpl.
    + by rewrite decide_True.
    + by rewrite decide_False.
Qed.

Lemma get_set_ne k k' v m : k ≠ k' → JsMap.get k' (JsMap.set k v m) = JsMap.get k' m.
Proof.
  intros Hne. induction m as [|[k0 v0] m IH]; simpl.
  - by rewrite decide_False.
  - destruct (decide (k0 = k)) as [->|Hne0]; simpl.
    + by rewrite !decide_False.
    + by rewrite IH.
Qed.

Lemma get_None k m : k ∉ JsMap.keys m → JsMap.get k m = None.
Proof.
  induction m as [|[k0 v0] m IH]; simpl; [done|].
  intros Hnin. apply not_elem_of_cons in Hnin as [Hne Hnin].
  rewrite decide_False by done. by apply IH.
Qed.

Lemma keys_set_in k v m :
  k ∈ JsMap.keys m → JsMap.keys (JsMap.set k v m) = JsMap.keys m.
Proof.
  unfold JsMap.keys. induction m as [|[k0 v0] m IH]; simpl.
  - by intros ?%not_elem_of_nil.
  - intros Hin. destruct (decide (k0 = k)) as [->|Hne]; simpl; [done|].
    apply elem_of_cons in Hin as [?|Hin]; [congruence|]. f_equal. by apply IH.
Qed.

Lemma keys_set_notin k v m :
  k ∉ JsMap.keys m → JsMap.keys (JsMap.set k v m) = JsMap.keys m ++ [k].
Proof.
  unfold JsMap.keys. induction m as [|[k0 v0] m IH]; simpl; [done|].
  intros [Hne Hnin]%not_elem_of_cons.
  rewrite decide_False by done. simpl. f_equal. by apply IH.
Qed.

Lemma keys_set_NoDup k v m : NoDup (JsMap.keys m) → NoDup (JsMap.keys (JsMap.set k v m)).
Proof.
  intros Hnd. destruct (decide (k ∈ JsMap.keys m)) as [Hin|Hnin].
  - by rewrite keys_set_in.
  - rewrite keys_set_notin by done.
    apply NoDup_app. split; [done|]. split; [|apply NoDup_singleton].
    intros x Hx ->%list_elem_of_singleton. done.
Qed.

(** Setting a sequence of keyed items one after the other: the last
    item set under a key is the one the map holds. *)
Lemma get_foldl_set (key : V → string) (items : list V) k : ∀ m,
  JsMap.get k (foldl (fun acc x => JsMap.set (key x) x acc) m items) =
    match last (filter (fun x => key x = k) items) with
    | Some x => Some x
    | None => JsMap.get k m
    end.
Proof.
  induction items as [|x items IH]; intros m; simpl; [done|].
  rewrite IH, filter_cons. destruct (decide (key x = k)) as [<-|Hne].
  - rewrite last_cons, get_set_eq. by destruct (last _).
  - by rewrite get_set_ne.
Qed.

Lemma keys_foldl_set_NoDup (key : V → string) (items : list V) : ∀ m,
  NoDup (JsMap.keys m) →
  NoDup (JsMap.keys (foldl (fun acc x => JsMap.set (key x) x acc) m items)).
Proof.
  induction items as [|x items IH]; intros m Hnd; simpl; [done|].
  by apply IH, keys_set_NoDup.
Qed.

Lemma keyed_by_keys (key : V → string) m :
  JsMap.keyed_by key m → key <$> JsMap.values m = JsMap.keys m.
Proof.
  unfold JsMap.keyed_by, JsMap.values, JsMap.keys.
  induction 1 as [|[k0 v0] m Hk Hm IH]; csimpl; [done|].
  simpl in Hk. by rewrite Hk, IH.
Qed.

Lemma keyed_by_set (key : V → string) v m :
  JsMap.keyed_by key m → JsMap.keyed_by key (JsMap.set (key v) v m).
Proof.
  unfold JsMap.keyed_by. induction 1 as [|[k0 v0] m Hk Hm IH]; simpl.
  - by constructor.
  - destruct (decide (k0 = key v)); constructor; done.
Qed.

Lemma keyed_by_foldl_set (key : V → string) (items : list V) : ∀ m,
  JsMap.keyed_by key m → JsMap.keyed_by key (foldl (fun acc x => JsMap.set (key x) x acc) m items).
Proof.
  induction items as [|x items IH]; intros m Hk; simpl; [done|].
  by apply IH, keyed_by_set.
Qed.

(** In a map whose values sit under their own, distinct keys, the values
    with a given key are the one the map holds for it, if any. *)
Lemma filter_values (key : V → string) m k :
  JsMap.keyed_by key m → NoDup (JsMap.keys m) →
  filter (fun x => key x = k) (JsMap.values m) = option_list (JsMap.get k m).
Proof.
  unfold JsMap.keyed_by, JsMap.values, JsMap.keys.
  induction 1 as [|[k0 v0] m Hk Hm IH]; csimpl; [done|].
  intros [Hnin Hnd]%NoDup_cons. simpl in Hk. subst k0.
  rewrite filter_cons. destruct (decide (key v0 = k)) as [<-|Hne].
  - rewrite IH by done. by rewrite get_None.
  - by apply IH.
Qed.
End JsMapProofs.
End JsMapProofs.

(** * Properties of the download tab *)
Module DownloadsProofs.
Import Downloads DownloadsSpec.

Lemma ls_get_eq w :
  ls_get DL_VIDS_META_KEY [] w = (Ok (index_of (localStorage w)), w).
Proof.
  unfold ls_get, gets, index_of.
  by destruct (localStorage w !! DL_VIDS_META_KEY) as [[]|].
Qed.

Lemma with_next_url_id w : with_next_url (next_url w) w = w.
Proof. by destruct w. Qed.

Lemma rebuild_loop_eq meta : ∀ rebuilt w,
  rebuild_loop meta rebuilt w =
    (Ok (rebuilt ++ rebuilt_from (opfs_videos w) meta (next_url w)),
     with_next_url (next_url w + length (rebuilt_from (opfs_videos w) meta (next_url w))) w).
Proof.
  induction meta as [|m meta IH]; intros rebuilt w; simpl.
  - rewrite app_nil_r, Nat.add_0_r, with_next_url_id. done.
  - unfold bind at 1. unfold try_catch, bind, readFileFromOPFS.
    destruct (opfs_videos w !! meta_name m) as [bytes|] eqn:E; simpl.
    + rewrite IH. simpl. rewrite <- app_assoc. simpl.
      f_equal. unfold with_next_url. simpl. f_equal. lia.
    + rewrite IH. done.
Qed.

Lemma rebuilt_from_names dir meta : ∀ n,
  video_name <$> rebuilt_from dir meta n =
  filter (fun name => is_Some (dir !! name)) (meta_name <$> meta).
Proof.
  induction meta as [|m meta IH]; intros n; simpl; [done|].
  rewrite filter_cons. destruct (dir !! meta_name m) as [bytes|] eqn:E.
  - rewrite decide_True by eauto. simpl. by rewrite IH.
  - rewrite decide_False by (by intros [? ?]). apply IH.
Qed.

Lemma rebuilt_from_urls dir meta : ∀ n,
  video_url <$> rebuilt_from dir meta n = seq n (length (rebuilt_from dir meta n)).
Proof.
  induction meta as [|m meta IH]; intros n; simpl; [done|].
  destruct (dir !! meta_name m); simpl; [by rewrite IH | apply IH].
Qed.

Lemma rebuilt_from_sizes dir meta : ∀ n v,
  v ∈ rebuilt_from dir meta n →
  ∃ bytes, dir !! video_name v = Some bytes ∧ video_size v = length bytes.
Proof.
  induction meta as [|m meta IH]; intros n v; simpl.
  - by intros ?%not_elem_of_nil.
  - destruct (dir !! meta_name m) as [bytes|] eqn:E; [|apply IH].
    intros [->|Hin]%elem_of_cons; [eauto | by eapply IH].
Qed.

Lemma read_succeeds_iff w name :
  read_succeeds w name = true ↔ is_Some (opfs_videos w !! name).
Proof.
  unfold read_succeeds, readFileFromOPFS.
  destruct (opfs_videos w !! name); simpl; split; eauto; try done.
Qed.

(** The mount effect, case by case. *)
Lemma mount_effect_eq w :
  mount_effect w =
    if hasOPFS w then
      let vs := rebuilt_from (opfs_videos w) (index_of (localStorage w)) (next_url w) in
      (Ok tt, set_videos vs (with_next_url (next_url w + length vs) w))
    else
      (Ok tt, set_videos []
         ((if negb (Nat.eqb (length (index_of (localStorage w))) 0)
           then push_toast ("OPFS not supported here; files won’t persist.", warn)
           else id) (set_opfsAvailable false w))).
Proof.
  unfold mount_effect, bind at 1, gets. destruct (hasOPFS w) eqn:Ho; simpl.
  - unfold try_catch, bind. rewrite ls_get_eq, rebuild_loop_eq. done.
  - unfold bind, setOpfsAvailable, modify. rewrite ls_get_eq.
    change (localStorage (set_opfsAvailable false w)) with (localStorage w).
    by destruct (negb _).
Qed.

(** [handleRemove], case by case. *)
Lemma handleRemove_eq name w :
  handleRemove name w =
    if hasOPFS w then
      match opfs_videos w !! name with
      | Some _ =>
          let w1 := set_opfs_videos (delete name (opfs_videos w)) w in
          let w2 := set_localStorage
                      (<[DL_VIDS_META_KEY :=
                           StoredJson (filter (fun m => meta_name m ≠ name)
                                              (index_of (localStorage w)))]>
                         (localStorage w)) w1 in
          (Ok tt, push_toast ("Removed", info)
                    (set_videos (filter (fun v => video_name v ≠ name) (videos w)) w2))
      | None => (Ok tt, push_toast ("Could not remove", warn) w)
      end
    else
      (Ok tt, push_toast ("Removed", info)
                (set_videos (filter (fun v => video_name v ≠ name) (videos w)) w)).
Proof.
  unfold handleRemove, try_catch, bind at 1, bind at 1, gets.
  destruct (hasOPFS w) eqn:Ho.
  - unfold bind at 1, bind at 1, deleteFromOPFS.
    destruct (opfs_videos w !! name) as [bytes|] eqn:E; [|done].
    unfold bind. rewrite ls_get_eq. done.
  - done.
Qed.

Lemma handleRemove_ok name w : (handleRemove name w).1 = Ok tt.
Proof.
  rewrite handleRemove_eq. destruct (hasOPFS w); [|done].
  by destruct (opfs_videos w !! name).
Qed.

Lemma mount_effect_ok w : (mount_effect w).1 = Ok tt.
Proof. rewrite mount_effect_eq. by destruct (hasOPFS w). Qed.

(** *** Rebuild *)

(** C3: the mount effect never throws; with OPFS it lists exactly the
    records of the stored index whose Blob Store read succeeds, in order,
    each with the size of the stored file and an object URL that was never
    handed out before and is shared with no other entry; the records whose
    read fails are dropped, and neither store nor the toasts change.
    Without OPFS no read can succeed and nothing is listed. *)
Theorem rebuild_lists_readable (w : World) :
  (mount_effect w).1 = Ok tt ∧
  (hasOPFS w = true →
     let w' := (mount_effect w).2 in
     video_name <$> videos w' =
       filter (fun name => read_succeeds w name = true)
              (meta_name <$> index_of (localStorage w)) ∧
     (∀ v, v ∈ videos w' →
        ∃ bytes, opfs_videos w !! video_name v = Some bytes ∧ video_size v = length bytes) ∧
     NoDup (video_url <$> videos w') ∧
     (∀ v, v ∈ videos w' → next_url w ≤ video_url v < next_url w') ∧
     durable w' = durable w ∧ toasts w' = toasts w) ∧
  (hasOPFS w = false → videos (mount_effect w).2 = []).
Proof.
  split; [apply mount_effect_ok|]. rewrite mount_effect_eq.
  split; [|by intros ->].
  intros ->. simpl.
  set (vs := rebuilt_from (opfs_videos w) (index_of (localStorage w)) (next_url w)).
  split; [|split; [|split; [|split]]].
  - unfold vs. rewrite rebuilt_from_names. apply list_filter_iff.
    intros name. by rewrite read_succeeds_iff.
  - intros v Hv. by eapply rebuilt_from_sizes.
  - unfold vs. rewrite rebuilt_from_urls. apply NoDup_seq.
  - intros v Hv.
    assert (Hin : video_url v ∈ video_url <$> vs) by (by apply list_elem_of_fmap_2).
    unfold vs in Hin at 1. rewrite rebuilt_from_urls in Hin. fold vs in Hin.
    apply elem_of_seq in Hin. lia.
  - done.
Qed.

Lemma rebuild_lists_readable_witness :
  video_name <$> videos (mount_effect (example_world two_files three_records [])).2 =
  ["a.mp4"; "c.mp4"].
Proof.
  etransitivity.
  - apply (proj1 (proj2 (rebuild_lists_readable
                            (example_world two_files three_records [])))).
    reflexivity.
  - vm_compute. reflexivity.
Defined.

(** *** Removal *)

(** C9: whatever the state and the name, and whether or not the file still
    existed when [handleRemove] ran, a rebuild after the removal does not
    list the name; neither call throws. *)
Theorem remove_then_rebuild_hides (w : World) (name : string) :
  (handleRemove name w).1 = Ok tt ∧
  (mount_effect (handleRemove name w).2).1 = Ok tt ∧
  name ∉ video_name <$> videos (mount_effect (handleRemove name w).2).2.
Proof.
  split; [apply handleRemove_ok|]. split; [apply mount_effect_ok|].
  rewrite handleRemove_eq, mount_effect_eq.
  destruct (hasOPFS w) eqn:Ho.
  - destruct (opfs_videos w !! name) as [bytes|] eqn:E; simpl; rewrite Ho; simpl;
      rewrite rebuilt_from_names; intros [[? Hl] _]%list_elem_of_filter.
    + by rewrite lookup_delete_eq in Hl.
    + by rewrite E in Hl.
  - simpl. rewrite Ho. simpl. apply not_elem_of_nil.
Qed.

(** C2 (counterexample): deleting the absent [a.mp4] rejects with
    NotFoundError; a second delete in a row rejects after the first one
    succeeded; and [handleRemove] of the evicted file reports
    [Could not remove], leaving the index and the list as they were. *)
Lemma remove_evicted_counterexample :
  deleteFromOPFS "a.mp4" evicted_world = (Throw NotFoundError, evicted_world) ∧
  (let w := example_world two_files three_records [] in
   (deleteFromOPFS "a.mp4" w).1 = Ok tt ∧
   (deleteFromOPFS "a.mp4" (deleteFromOPFS "a.mp4" w).2).1 = Throw NotFoundError) ∧
  toasts (handleRemove "a.mp4" evicted_world).2 = [("Could not remove", warn)] ∧
  videos (handleRemove "a.mp4" evicted_world).2 = [mkVideo "a.mp4" 3 0] ∧
  index_of (localStorage (handleRemove "a.mp4" evicted_world).2) = [mkMeta "a.mp4" 3] ∧
  ¬ delete_absent_is_noop ∧ ¬ remove_succeeds_when_gone.
Proof.
  split; [reflexivity|]. split; [split; reflexivity|].
  split; [reflexivity|]. split; [reflexivity|]. split; [reflexivity|]. split.
  - intros H. specialize (H evicted_world "a.mp4" eq_refl). discriminate H.
  - intros H. specialize (H evicted_world "a.mp4" eq_refl eq_refl). discriminate H.
Qed.

(** C2 (amended): [deleteFromOPFS] removes an entry that is present and
    rejects with NotFoundError when the name is absent, so a second delete
    in a row rejects.  With OPFS, [handleRemove] of a name whose file
    exists removes the file, its index record and its list entry and
    reports [Removed]; when the file is already gone it reports
    [Could not remove] and changes nothing else.  Without OPFS it only
    drops the list entry and reports [Removed].  It never throws. *)
Theorem remove_policy (w : World) (name : string) :
  (opfs_videos w !! name = None →
     deleteFromOPFS name w = (Throw NotFoundError, w)) ∧
  (is_Some (opfs_videos w !! name) →
     ∃ w', deleteFromOPFS name w = (Ok tt, w') ∧
           opfs_videos w' = delete name (opfs_videos w) ∧
           deleteFromOPFS name w' = (Throw NotFoundError, w')) ∧
  (handleRemove name w).1 = Ok tt ∧
  (hasOPFS w = true → opfs_videos w !! name = None →
     (handleRemove name w).2 = push_toast ("Could not remove", warn) w) ∧
  (hasOPFS w = true → is_Some (opfs_videos w !! name) →
     let w' := (handleRemove name w).2 in
     toasts w' = toasts w ++ [("Removed", info)] ∧
     opfs_videos w' = delete name (opfs_videos w) ∧
     index_of (localStorage w') = filter (fun m => meta_name m ≠ name) (index_of (localStorage w)) ∧
     videos w' = filter (fun v => video_name v ≠ name) (videos w)) ∧
  (hasOPFS w = false →
     let w' := (handleRemove name w).2 in
     toasts w' = toasts w ++ [("Removed", info)] ∧
     durable w' = durable w ∧
     videos w' = filter (fun v => video_name v ≠ name) (videos w)).
Proof.
  split; [|split; [|split; [|split; [|split]]]].
  - intros E. unfold deleteFromOPFS. by rewrite E.
  - intros [bytes E]. unfold deleteFromOPFS at 1. rewrite E.
    eexists. split; [done|]. split; [done|].
    unfold deleteFromOPFS. simpl. by rewrite lookup_delete_eq.
  - apply handleRemove_ok.
  - intros Ho E. by rewrite handleRemove_eq, Ho, E.
  - intros Ho [bytes E]. rewrite handleRemove_eq, Ho, E. simpl.
    split; [done|]. split; [done|]. split; [|done].
    unfold index_of. by rewrite lookup_insert_eq.
  - intros Ho. by rewrite handleRemove_eq, Ho.
Qed.

Lemma remove_policy_witness :
  (handleRemove "a.mp4" evicted_world).2 =
    push_toast ("Could not remove", warn) evicted_world ∧
  opfs_videos (handleRemove "a.mp4" (example_world two_files three_records [])).2 =
    delete "a.mp4" two_files.
Proof.
  split.
  - apply (proj1 (proj2 (proj2 (proj2 (remove_policy evicted_world "a.mp4")))));
      reflexivity.
  - apply (proj1 (proj2 (proj2 (proj2 (proj2
             (remove_policy (example_world two_files three_records []) "a.mp4")))))).
    + reflexivity.
    + exists (bytes_of "aaa"). reflexivity.
Defined.

(** *** The metadata merge *)

Lemma merge_meta_eq existing addedMeta :
  merge_meta existing addedMeta =
  JsMap.values (foldl (fun acc m => JsMap.set (meta_name m) m acc) [] (existing ++ addedMeta)).
Proof. unfold merge_meta, JsMap.of_entries. by rewrite foldl_fmap, foldl_app. Qed.

Lemma merge_meta_NoDup existing addedMeta :
  NoDup (meta_name <$> merge_meta existing addedMeta).
Proof.
  rewrite merge_meta_eq, (JsMapProofs.keyed_by_keys meta_name).
  - apply JsMapProofs.keys_foldl_set_NoDup, NoDup_nil_2.
  - apply JsMapProofs.keyed_by_foldl_set. constructor.
Qed.

Lemma merge_meta_filter existing addedMeta name :
  filter (fun r => meta_name r = name) (merge_meta existing addedMeta) =
  option_list (last (filter (fun r => meta_name r = name) (existing ++ addedMeta))).
Proof.
  rewrite merge_meta_eq, (JsMapProofs.filter_values meta_name).
  - rewrite JsMapProofs.get_foldl_set. by destruct (last _).
  - apply JsMapProofs.keyed_by_foldl_set. constructor.
  - apply JsMapProofs.keys_foldl_set_NoDup, NoDup_nil_2.
Qed.

Lemma upsertAll_eq addedMeta w :
  upsertAll addedMeta w =
    let merged := merge_meta (index_of (localStorage w)) addedMeta in
    (Ok merged, set_localStorage (<[DL_VIDS_META_KEY := StoredJson merged]> (localStorage w)) w).
Proof. unfold upsertAll, bind. rewrite ls_get_eq. done. Qed.

Lemma upsertAll_index addedMeta w :
  index_of (localStorage (upsertAll addedMeta w).2) =
  merge_meta (index_of (localStorage w)) addedMeta.
Proof. rewrite upsertAll_eq. simpl. unfold index_of at 1. by rewrite lookup_insert_eq. Qed.

(** A merge keeps the position of the first record of a name and the
    content of its last one; new names go to the end. *)
Example merge_meta_order :
  merge_meta [mkMeta "a.mp4" 3; mkMeta "b.mp4" 5; mkMeta "a.mp4" 4]
             [mkMeta "b.mp4" 9; mkMeta "d.mp4" 1]
  = [mkMeta "a.mp4" 4; mkMeta "b.mp4" 9; mkMeta "d.mp4" 1].
Proof. reflexivity. Qed.

(** C7: whatever is stored, [upsertAll] returns and stores a collection
    with one record per name, and after a first and a second call the
    records stored for a name that the second call carries are exactly one:
    the last record the second call has for that name, so its size is the
    one stored. *)
Theorem upsertAll_latest_wins (w : World) (first second : list MetaRecord)
    (name : string) (r2 : MetaRecord) :
  last (filter (fun r => meta_name r = name) second) = Some r2 →
  let w1 := (upsertAll first w).2 in
  let w2 := (upsertAll second w1).2 in
  (upsertAll second w1).1 = Ok (index_of (localStorage w2)) ∧
  NoDup (meta_name <$> index_of (localStorage w2)) ∧
  filter (fun r => meta_name r = name) (index_of (localStorage w2)) = [r2] ∧
  meta_size <$> filter (fun r => meta_name r = name) (index_of (localStorage w2)) =
    [meta_size r2].
Proof.
  intros Hlast w1 w2.
  assert (Hidx : index_of (localStorage w2) = merge_meta (index_of (localStorage w1)) second)
    by apply upsertAll_index.
  assert (Hf : filter (fun r => meta_name r = name) (index_of (localStorage w2)) = [r2]).
  { rewrite Hidx, merge_meta_filter, filter_app, last_app, Hlast. done. }
  split; [|split; [|split]].
  - rewrite Hidx. unfold w2. by rewrite upsertAll_eq.
  - rewrite Hidx. apply merge_meta_NoDup.
  - exact Hf.
  - by rewrite Hf.
Qed.

Lemma upsertAll_latest_wins_witness :
  filter (fun r => meta_name r = "b.mp4")
    (index_of (localStorage
       (upsertAll [mkMeta "b.mp4" 9; mkMeta "d.mp4" 1]
          (upsertAll [mkMeta "b.mp4" 7] (example_world two_files three_records [])).2).2))
  = [mkMeta "b.mp4" 9].
Proof.
  apply (upsertAll_latest_wins (example_world two_files three_records [])
           [mkMeta "b.mp4" 7] [mkMeta "b.mp4" 9; mkMeta "d.mp4" 1] "b.mp4" (mkMeta "b.mp4" 9)).
  reflexivity.
Defined.

(** *** Import *)

Lemma write_phase_refl w : write_phase w w.
Proof. split; try done. exists []. split; [done|]. by intros s ?%not_elem_of_nil. Qed.

Lemma write_phase_trans w1 w2 w3 :
  write_phase w1 w2 → write_phase w2 w3 → write_phase w1 w3.
Proof.
  intros [? ? Hl ? ? ? ? (n1 & Hh1 & Hn1)] [? ? ? ? ? ? ? (n2 & Hh2 & Hn2)].
  split; try congruence.
  exists (n2 ++ n1). split; [by rewrite Hh2, Hh1, app_assoc|].
  intros s [Hs|Hs]%elem_of_app; [|by apply Hn1].
  rewrite (Hn2 s Hs). exact Hl.
Qed.

Lemma write_phase_set_opfs w dir : write_phase w (set_opfs_videos dir w).
Proof.
  split; try done. exists [mkDurable dir (localStorage w)]. split; [done|].
  by intros s ->%list_elem_of_singleton.
Qed.

Lemma getFileHandle_create_spec name w :
  ∃ w', getFileHandle_create name w = (Ok tt, w') ∧ write_phase w w' ∧
        opfs_videos w' =
          match opfs_videos w !! name with
          | Some _ => opfs_videos w
          | None => <[name := []]> (opfs_videos w)
          end.
Proof.
  unfold getFileHandle_create. destruct (opfs_videos w !! name) eqn:E.
  - exists w. split; [done|]. split; [apply write_phase_refl|done].
  - eexists. split; [done|]. split; [apply write_phase_set_opfs|done].
Qed.

Lemma writeFileToOPFS_good f w :
  file_stream_ok f = true →
  ∃ w', writeFileToOPFS f w = (Ok (meta_of f), w') ∧ write_phase w w' ∧
        opfs_videos w' = <[file_name f := file_bytes f]> (opfs_videos w).
Proof.
  intros Hok. destruct (getFileHandle_create_spec (file_name f) w) as (w1 & Hc & Hp & Hd).
  unfold writeFileToOPFS, bind. rewrite Hc. unfold pipeTo. rewrite Hok.
  eexists. split; [done|]. split.
  - eapply write_phase_trans; [exact Hp|apply write_phase_set_opfs].
  - simpl. rewrite Hd. destruct (opfs_videos w !! file_name f); [done|].
    apply insert_insert_eq.
Qed.

Lemma writeFileToOPFS_bad f w :
  file_stream_ok f = false →
  ∃ w', writeFileToOPFS f w = (Throw NotReadableError, w') ∧ write_phase w w' ∧
        opfs_videos w' =
          match opfs_videos w !! file_name f with
          | Some _ => opfs_videos w
          | None => <[file_name f := []]> (opfs_videos w)
          end.
Proof.
  intros Hok. destruct (getFileHandle_create_spec (file_name f) w) as (w1 & Hc & Hp & Hd).
  unfold writeFileToOPFS, bind. rewrite Hc. unfold pipeTo. rewrite Hok.
  by exists w1.
Qed.

Lemma written_snoc files f dir :
  written (files ++ [f]) dir = <[file_name f := file_bytes f]> (written files dir).
Proof. unfold written. by rewrite foldl_app. Qed.

Lemma written_lookup_in files : ∀ dir f,
  f ∈ files →
  ∃ f', f' ∈ files ∧ file_name f' = file_name f ∧
        written files dir !! file_name f = Some (file_bytes f').
Proof.
  induction files as [|g files IH] using rev_ind; intros dir f Hin.
  - by apply not_elem_of_nil in Hin.
  - rewrite written_snoc. destruct (decide (file_name g = file_name f)) as [Heq|Hne].
    + exists g. split; [apply elem_of_app; right; by left|]. split; [done|].
      by rewrite <- Heq, lookup_insert_eq.
    + apply elem_of_app in Hin as [Hin|Hin%list_elem_of_singleton]; [|by subst].
      destruct (IH dir f Hin) as (f' & Hf' & Hn & Hl).
      exists f'. split; [apply elem_of_app; by left|]. split; [done|].
      by rewrite lookup_insert_ne.
Qed.

Lemma written_lookup_notin files : ∀ dir n,
  n ∉ file_name <$> files → written files dir !! n = dir !! n.
Proof.
  induction files as [|g files IH] using rev_ind; intros dir n Hnin; [done|].
  rewrite fmap_app in Hnin. apply not_elem_of_app in Hnin as [Hnin Hg].
  rewrite written_snoc, lookup_insert_ne; [by apply IH|].
  intros Heq. apply Hg. rewrite <- Heq. by left.
Qed.

Lemma add_loop_app picks1 picks2 : ∀ acc w,
  add_loop (picks1 ++ picks2) acc w =
  (let* acc' := add_loop picks1 acc in add_loop picks2 acc') w.
Proof.
  induction picks1 as [|h picks1 IH]; intros acc w; [done|].
  simpl. rewrite bind_assoc. apply bind_ext. intros file w1.
  rewrite bind_assoc. apply bind_ext. intros [] w2.
  - rewrite bind_assoc. apply bind_ext. intros _ w3. apply IH.
  - rewrite bind_assoc. apply bind_ext. intros url w3.
    rewrite bind_assoc. apply bind_ext. intros _ w4. apply IH.
Qed.

Lemma add_loop_cons_good f picks acc w :
  hasOPFS w = true →
  add_loop (good_handle f :: picks) acc w =
  (writeFileToOPFS f ;;; add_loop picks (acc ++ [meta_of f])) w.
Proof.
  intros Ho. simpl. unfold bind at 1, getFile. simpl.
  unfold bind at 1, gets. by rewrite Ho.
Qed.

(** With OPFS, a pick list of readable files is written file by file. *)
Lemma add_loop_good files : ∀ acc w,
  hasOPFS w = true → Forall (fun f => file_stream_ok f = true) files →
  ∃ w', add_loop (good_handle <$> files) acc w = (Ok (acc ++ (meta_of <$> files)), w') ∧
        write_phase w w' ∧ opfs_videos w' = written files (opfs_videos w).
Proof.
  induction files as [|f files IH]; intros acc w Ho Hall.
  - exists w. rewrite app_nil_r. split; [done|]. split; [apply write_phase_refl|done].
  - apply Forall_cons in Hall as [Hf Hall].
    destruct (writeFileToOPFS_good f w Hf) as (w1 & Hw & Hp & Hd).
    destruct (IH (acc ++ [meta_of f]) w1) as (w2 & Hl & Hp2 & Hd2); [|done|].
    { by rewrite (wp_hasOPFS _ _ Hp). }
    exists w2. split; [|split].
    + rewrite fmap_cons, add_loop_cons_good by done.
      unfold bind. rewrite Hw, Hl. by rewrite <- app_assoc.
    + by eapply write_phase_trans.
    + rewrite Hd2, Hd. done.
Qed.

(** With OPFS, whatever is picked, the loop only touches the Blob Store,
    and when it completes every pick was a readable file that has been
    written. *)
Lemma add_loop_writes picks : ∀ acc w,
  hasOPFS w = true →
  ∃ r w', add_loop picks acc w = (r, w') ∧ write_phase w w' ∧
    ∀ added, r = Ok added →
      ∃ files, picks = good_handle <$> files ∧ added = acc ++ (meta_of <$> files) ∧
               opfs_videos w' = written files (opfs_videos w).
Proof.
  induction picks as [|[[f|]] picks IH]; intros acc w Ho.
  - exists (Ok acc), w. split; [done|]. split; [apply write_phase_refl|].
    intros added [= <-]. exists []. by rewrite app_nil_r.
  - change (mkHandle (Some f)) with (good_handle f).
    destruct (file_stream_ok f) eqn:Hf.
    + destruct (writeFileToOPFS_good f w Hf) as (w1 & Hw & Hp & Hd).
      destruct (IH (acc ++ [meta_of f]) w1) as (r & w2 & Hl & Hp2 & Hr).
      { by rewrite (wp_hasOPFS _ _ Hp). }
      exists r, w2. split; [|split].
      * rewrite add_loop_cons_good by done. unfold bind. by rewrite Hw.
      * by eapply write_phase_trans.
      * intros added Hadded. destruct (Hr added Hadded) as (files & -> & -> & Hd2).
        exists (f :: files). split; [done|]. split; [by rewrite <- app_assoc|].
        rewrite Hd2, Hd. done.
    + destruct (writeFileToOPFS_bad f w Hf) as (w1 & Hw & Hp & Hd).
      exists (Throw NotReadableError), w1. split; [|split; [done|done]].
      rewrite add_loop_cons_good by done. unfold bind. by rewrite Hw.
  - exists (Throw NotFoundError), w. split; [done|]. split; [apply write_phase_refl|done].
Qed.

(** Without OPFS the loop leaves both durable stores and the history
    alone. *)
Lemma add_loop_session picks : ∀ acc w,
  hasOPFS w = false →
  ∃ r w', add_loop picks acc w = (r, w') ∧ hasOPFS w' = false ∧
          durable w' = durable w ∧ history w' = history w.
Proof.
  induction picks as [|[[f|]] picks IH]; intros acc w Ho.
  - by exists (Ok acc), w.
  - simpl. unfold bind at 1, getFile. simpl. unfold bind at 1, gets. rewrite Ho.
    unfold bind at 1, createObjectURL. unfold bind at 1, modify.
    edestruct IH as (r & w' & -> & ? & ? & ?); [|by exists r, w'].
    done.
  - by exists (Throw NotFoundError), w.
Qed.

(** [handleAdd] after the picker, in terms of the loop's outcome. *)
Lemma handleAdd_picked picks w :
  pickerSupported w = true →
  handleAdd (PickerPicked picks) w =
    match add_loop picks [] w with
    | (Ok added, w1) =>
        if hasOPFS w1 && negb (Nat.eqb (length added) 0) then
          let merged := merge_meta (index_of (localStorage w1)) added in
          let w2 := set_localStorage
                      (<[DL_VIDS_META_KEY := StoredJson merged]> (localStorage w1)) w1 in
          let vs := rebuilt_from (opfs_videos w2) merged (next_url w2) in
          (Ok tt, push_toast ("Video(s) saved for offline use", success)
                    (set_videos vs (with_next_url (next_url w2 + length vs) w2)))
        else (Ok tt, push_toast ("Video(s) added (session-only)", warn) w1)
    | (Throw e, w1) =>
        (Ok tt, if negb (String.eqb (exn_name e) "AbortError")
                then push_toast ("Failed to add video", warn) w1 else w1)
    end.
Proof.
  intros Hp. unfold handleAdd, try_catch. unfold bind at 1, gets. rewrite Hp. simpl.
  unfold bind at 1, ret. unfold bind at 1.
  destruct (add_loop picks [] w) as [[added|e] w1].
  - unfold bind at 1, gets. destruct (hasOPFS w1 && _); [|done].
    unfold bind at 1. rewrite upsertAll_eq. simpl.
    unfold bind at 1. rewrite rebuild_loop_eq. done.
  - by destruct (negb _).
Qed.

Lemma merge_meta_names existing addedMeta n :
  n ∈ meta_name <$> merge_meta existing addedMeta →
  n ∈ meta_name <$> existing ∨ n ∈ meta_name <$> addedMeta.
Proof.
  intros (r & -> & Hr)%list_elem_of_fmap.
  assert (Hf : r ∈ filter (fun r' => meta_name r' = meta_name r)
                     (merge_meta existing addedMeta))
    by (by apply list_elem_of_filter).
  rewrite merge_meta_filter in Hf.
  destruct (last _) as [r'|] eqn:Hlast; simpl in Hf; [|by apply not_elem_of_nil in Hf].
  apply list_elem_of_singleton in Hf as ->.
  apply last_Some_elem_of, list_elem_of_filter in Hlast as [_ Hin].
  apply elem_of_app in Hin as [Hin|Hin]; [left|right]; by apply list_elem_of_fmap_2.
Qed.

Lemma picked_files_good files : picked_files (PickerPicked (good_handle <$> files)) = files.
Proof.
  unfold picked_files. induction files as [|f files IH]; [done|].
  rewrite fmap_cons. change (omap getFile_result (good_handle f :: ?l))
    with (f :: omap getFile_result l). by f_equal.
Qed.

Lemma handleAdd_unsupported outcome w :
  pickerSupported w = false →
  handleAdd outcome w =
    (Ok tt, push_toast ("This browser can’t open files (no picker).", warn) w).
Proof. intros Hp. unfold handleAdd, try_catch, bind, gets. by rewrite Hp. Qed.

Lemma handleAdd_dismissed w :
  pickerSupported w = true → handleAdd PickerDismissed w = (Ok tt, w).
Proof. intros Hp. unfold handleAdd, try_catch, bind, gets. by rewrite Hp. Qed.

Lemma merge_meta_names_iff existing addedMeta n :
  n ∈ meta_name <$> merge_meta existing addedMeta ↔
  n ∈ meta_name <$> existing ∨ n ∈ meta_name <$> addedMeta.
Proof.
  split; [apply merge_meta_names|].
  intros Hn.
  assert (Hin : n ∈ meta_name <$> (existing ++ addedMeta))
    by (rewrite fmap_app; by apply elem_of_app).
  apply list_elem_of_fmap in Hin as (r & -> & Hr).
  assert (Hf : r ∈ filter (fun r' => meta_name r' = meta_name r) (existing ++ addedMeta))
    by (by apply list_elem_of_filter).
  pose proof (merge_meta_filter existing addedMeta (meta_name r)) as Hm.
  destruct (last (filter _ (existing ++ addedMeta))) as [r'|] eqn:Hlast.
  - assert (Hr' : r' ∈ filter (fun r0 => meta_name r0 = meta_name r)
                         (merge_meta existing addedMeta))
      by (rewrite Hm; by left).
    apply list_elem_of_filter in Hr' as [<- Hr'].
    by apply list_elem_of_fmap_2.
  - apply last_None in Hlast. rewrite Hlast in Hf. by apply not_elem_of_nil in Hf.
Qed.

(** What a successful import with OPFS leaves behind. *)
Lemma handleAdd_saved w files :
  hasOPFS w = true → pickerSupported w = true →
  Forall (fun f => file_stream_ok f = true) files → files ≠ [] →
  ∃ w1,
    write_phase w w1 ∧ opfs_videos w1 = written files (opfs_videos w) ∧
    handleAdd (PickerPicked (good_handle <$> files)) w =
      (let merged := merge_meta (index_of (localStorage w)) (meta_of <$> files) in
       let w2 := set_localStorage
                   (<[DL_VIDS_META_KEY := StoredJson merged]> (localStorage w1)) w1 in
       let vs := rebuilt_from (opfs_videos w1) merged (next_url w1) in
       (Ok tt, push_toast ("Video(s) saved for offline use", success)
                 (set_videos vs (with_next_url (next_url w1 + length vs) w2)))).
Proof.
  intros Ho Hp Hgood Hne.
  destruct (add_loop_good files [] w Ho Hgood) as (w1 & Hl & Hw & Hd).
  exists w1. split; [done|]. split; [done|].
  rewrite handleAdd_picked by done. rewrite Hl. simpl.
  rewrite (wp_hasOPFS _ _ Hw), Ho, (wp_localStorage _ _ Hw).
  destruct files; [done|]. done.
Qed.

(** [handleAdd] never throws, and the durable states it goes through are,
    in time order, Blob Store writes under the unchanged index followed by
    at most one index update. *)
Lemma handleAdd_durable_steps (w : World) (outcome : PickerOutcome) :
  (handleAdd outcome w).1 = Ok tt ∧
  ∃ update writes,
    history (handleAdd outcome w).2 = update ++ writes ++ history w ∧
    (∀ s, s ∈ writes → d_localStorage s = localStorage w) ∧
    ((update = [] ∧ localStorage (handleAdd outcome w).2 = localStorage w) ∨
     update = [durable (handleAdd outcome w).2]) ∧
    (∀ s f, s ∈ update → f ∈ picked_files outcome →
       ∃ f', f' ∈ picked_files outcome ∧ file_name f' = file_name f ∧
             d_opfs s !! file_name f = Some (file_bytes f')) ∧
    (∀ s n, s ∈ update ++ writes →
       n ∈ meta_name <$> index_of (d_localStorage s) →
       n ∈ meta_name <$> index_of (localStorage w) ∨
       ∃ f, f ∈ picked_files outcome ∧ file_name f = n ∧
            d_opfs s !! n = Some (file_bytes f)).
Proof.
  (* An import that leaves the index alone. *)
  match goal with |- ?G =>
    assert (Hquiet : ∀ w', handleAdd outcome w = (Ok tt, w') →
              ∀ new, history w' = new ++ history w →
              (∀ s, s ∈ new → d_localStorage s = localStorage w) →
              localStorage w' = localStorage w → G)
  end.
  { intros w' -> new Hh Hnew Hls. simpl. split; [done|].
    exists [], new. split; [done|]. split; [done|]. split; [by left|]. split.
    - by intros s f ?%not_elem_of_nil.
    - intros s n Hs Hn. left. simpl in Hs. by rewrite <- (Hnew s Hs). }
  destruct (pickerSupported w) eqn:Hp.
  2: { eapply (Hquiet _ (handleAdd_unsupported outcome w Hp) []); try done.
       by intros s ?%not_elem_of_nil. }
  destruct outcome as [|picks].
  { eapply (Hquiet _ (handleAdd_dismissed w Hp) []); try done.
    by intros s ?%not_elem_of_nil. }
  pose proof (handleAdd_picked picks w Hp) as Heq.
  destruct (hasOPFS w) eqn:Ho.
  - destruct (add_loop_writes picks [] w Ho) as (r & w1 & Hl & Hw & Hr).
    destruct Hw as [Ho1 _ Hls1 _ _ _ _ (new & Hh & Hnew)].
    rewrite Hl in Heq. destruct r as [added|e].
    + destruct (Hr added eq_refl) as (files & -> & -> & Hd).
      rewrite Ho1, Ho in Heq. simpl in Heq.
      destruct (negb (Nat.eqb (length (meta_of <$> files)) 0)) eqn:Hlen.
      * clear Hquiet. rewrite picked_files_good, Heq. simpl. split; [done|].
        eexists [_], new. split; [by rewrite Hh|]. split; [done|]. split; [by right|].
        split.
        -- intros s f ->%list_elem_of_singleton Hf. simpl. rewrite Hd.
           by apply written_lookup_in.
        -- intros s n [->%list_elem_of_singleton|Hs]%elem_of_app Hn.
           ++ simpl in Hn. unfold index_of in Hn at 1. rewrite lookup_insert_eq in Hn.
              apply merge_meta_names in Hn as [Hn|Hn]; [left; by rewrite <- Hls1|right].
              rewrite <- list_fmap_compose in Hn.
              apply list_elem_of_fmap in Hn as (f & -> & Hf).
              destruct (written_lookup_in files (opfs_videos w) f Hf) as (f' & ? & ? & ?).
              exists f'. simpl. rewrite Hd. by split; [|split; [|congruence]].
           ++ left. by rewrite <- (Hnew s Hs).
      * by eapply (Hquiet _ Heq new).
    + eapply (Hquiet _ Heq new); [|done|]; by destruct (negb _).
  - destruct (add_loop_session picks [] w Ho) as (r & w1 & Hl & Ho1 & Hd & Hh).
    rewrite Hl in Heq. injection Hd as Hd1 Hd2.
    destruct r as [added|e].
    + rewrite Ho1 in Heq. simpl in Heq.
      eapply (Hquiet _ Heq []); try done. by intros s ?%not_elem_of_nil.
    + eapply (Hquiet _ Heq []); try (by destruct (negb _)).
      by intros s ?%not_elem_of_nil.
Qed.

(** C1 (counterexample): the index lists [a.mp4] from an earlier import
    and the file is gone from the Blob Store.  A new [a.mp4] is imported:
    the first durable state of the import has an empty entry for [a.mp4],
    created for the write, under an index that lists [a.mp4]. *)
Lemma reimport_counterexample :
  let w' := (handleAdd (PickerPicked [good_handle new_a]) stale_index_world).2 in
  (fun s => (d_opfs s !! "a.mp4", meta_name <$> index_of (d_localStorage s)))
    <$> reverse (history w')
  = [ (Some [], ["a.mp4"]);
      (Some (bytes_of "abc"), ["a.mp4"]);
      (Some (bytes_of "abc"), ["a.mp4"]) ] ∧
  ¬ listed_imports_are_written.
Proof.
  simpl. split; [vm_compute; reflexivity|].
  intros H.
  set (s := mkDurable {[ "a.mp4" := [] ]} (localStorage stale_index_world)).
  destruct (H stale_index_world (PickerPicked [good_handle new_a])
              (history (handleAdd (PickerPicked [good_handle new_a]) stale_index_world).2)
              s new_a) as (f' & Hf' & _ & Hbytes).
  - by rewrite app_nil_r.
  - do 2 right. left.
  - by left.
  - by left.
  - apply list_elem_of_singleton in Hf' as ->. discriminate Hbytes.
Qed.

(** C1 (amended): [handleAdd] never throws, and the durable states it goes
    through are, in time order, Blob Store writes under the unchanged index
    followed by at most one index update, which is the last durable change
    and is made when every picked file has its bytes in the Blob Store.  So
    at every intermediate point a name the index lists is either a name it
    listed before the import or the name of a picked file whose bytes are
    in the Blob Store.  And the update does happen: with OPFS and a picker,
    an import of one or more readable files ends with every file written
    and the index updated once, to the old records merged with the new
    ones, so that it lists every picked name.  (The history lists the
    newest state first.) *)
Theorem writes_precede_index_update (w : World) (outcome : PickerOutcome) :
  (handleAdd outcome w).1 = Ok tt ∧
  (∃ update writes,
    history (handleAdd outcome w).2 = update ++ writes ++ history w ∧
    (∀ s, s ∈ writes → d_localStorage s = localStorage w) ∧
    ((update = [] ∧ localStorage (handleAdd outcome w).2 = localStorage w) ∨
     update = [durable (handleAdd outcome w).2]) ∧
    (∀ s f, s ∈ update → f ∈ picked_files outcome →
       ∃ f', f' ∈ picked_files outcome ∧ file_name f' = file_name f ∧
             d_opfs s !! file_name f = Some (file_bytes f')) ∧
    (∀ s n, s ∈ update ++ writes →
       n ∈ meta_name <$> index_of (d_localStorage s) →
       n ∈ meta_name <$> index_of (localStorage w) ∨
       ∃ f, f ∈ picked_files outcome ∧ file_name f = n ∧
            d_opfs s !! n = Some (file_bytes f))) ∧
  (∀ files,
     hasOPFS w = true → pickerSupported w = true →
     outcome = PickerPicked (good_handle <$> files) →
     Forall (fun f => file_stream_ok f = true) files → files ≠ [] →
     ∃ writes,
       history (handleAdd outcome w).2 =
         durable (handleAdd outcome w).2 :: writes ++ history w ∧
       (∀ s, s ∈ writes → d_localStorage s = localStorage w) ∧
       opfs_videos (handleAdd outcome w).2 = written files (opfs_videos w) ∧
       index_of (localStorage (handleAdd outcome w).2) =
         merge_meta (index_of (localStorage w)) (meta_of <$> files) ∧
       (∀ f, f ∈ files →
          file_name f ∈ meta_name <$> index_of (localStorage (handleAdd outcome w).2))).
Proof.
  destruct (handleAdd_durable_steps w outcome) as [Hok Hsteps].
  split; [done|]. split; [done|].
  intros files Ho Hp -> Hgood Hne.
  destruct (handleAdd_saved w files Ho Hp Hgood Hne) as (w1 & Hw & Hd & ->).
  destruct Hw as [_ _ Hls1 _ _ _ _ (new & Hh & Hnew)].
  exists new. simpl. split; [by rewrite Hh|]. split; [done|]. split; [done|].
  assert (Hidx : index_of (<[DL_VIDS_META_KEY :=
                     StoredJson (merge_meta (index_of (localStorage w)) (meta_of <$> files))]>
                   (localStorage w1)) =
                 merge_meta (index_of (localStorage w)) (meta_of <$> files)).
  { unfold index_of at 1. by rewrite lookup_insert_eq. }
  rewrite Hidx. split; [done|].
  intros f Hf. apply merge_meta_names_iff. right.
  rewrite <- list_fmap_compose. by apply (list_elem_of_fmap_2 (meta_name ∘ meta_of)).
Qed.

Lemma writes_precede_index_update_witness :
  let w := example_world two_files three_records [] in
  let outcome := PickerPicked (good_handle <$> [readable_y; readable_z]) in
  ∃ writes,
    history (handleAdd outcome w).2 =
      durable (handleAdd outcome w).2 :: writes ++ history w ∧
    (∀ s, s ∈ writes → d_localStorage s = localStorage w) ∧
    opfs_videos (handleAdd outcome w).2 =
      written [readable_y; readable_z] (opfs_videos w) ∧
    index_of (localStorage (handleAdd outcome w).2) =
      merge_meta (index_of (localStorage w)) (meta_of <$> [readable_y; readable_z]) ∧
    (∀ f, f ∈ [readable_y; readable_z] →
       file_name f ∈ meta_name <$> index_of (localStorage (handleAdd outcome w).2)).
Proof.
  apply (proj2 (proj2 (writes_precede_index_update
                         (example_world two_files three_records [])
                         (PickerPicked (good_handle <$> [readable_y; readable_z]))))
           [readable_y; readable_z]).
  - reflexivity.
  - reflexivity.
  - reflexivity.
  - repeat constructor.
  - discriminate.
Defined.

(** The index held by each durable state of an import of [y.mp4] and
    [z.mp4], oldest first: the file entries are created and filled under
    the old index, then the index is updated once. *)
Example import_history :
  (fun s => (elements (dom (d_opfs s)), meta_name <$> index_of (d_localStorage s)))
    <$> reverse (history
          (handleAdd (PickerPicked [good_handle (mkFile "y.mp4" [] true);
                                    good_handle (mkFile "z.mp4" [] true)])
                     (example_world ∅ [mkMeta "a.mp4" 3] [])).2)
  = [ (["y.mp4"], ["a.mp4"]);
      (["y.mp4"], ["a.mp4"]);
      (["y.mp4"; "z.mp4"], ["a.mp4"]);
      (["y.mp4"; "z.mp4"], ["a.mp4"]);
      (["y.mp4"; "z.mp4"], ["a.mp4"; "y.mp4"; "z.mp4"]) ].
Proof. vm_compute. reflexivity. Qed.

(** *** A failing file in a multi-file import *)

(** The loop on a pick that fails, after readable picks. *)
Lemma add_loop_fails bad after acc w :
  hasOPFS w = true → pick_fails bad →
  ∃ e w', add_loop (bad :: after) acc w = (Throw e, w') ∧
    exn_name e ≠ "AbortError" ∧ write_phase w w' ∧
    (∀ n, is_Some (opfs_videos w !! n) → opfs_videos w' !! n = opfs_videos w !! n) ∧
    (∀ n, (∀ f, getFile_result bad = Some f → file_name f ≠ n) →
          opfs_videos w' !! n = opfs_videos w !! n).
Proof.
  intros Ho Hbad. destruct bad as [[f|]]; unfold pick_fails in Hbad; simpl in Hbad.
  - change (mkHandle (Some f)) with (good_handle f).
    destruct (writeFileToOPFS_bad f w Hbad) as (w1 & Hw & Hp & Hd).
    exists NotReadableError, w1. split; [|split; [done|split; [done|split]]].
    + rewrite add_loop_cons_good by done. unfold bind. by rewrite Hw.
    + intros n Hn. rewrite Hd. destruct (opfs_videos w !! file_name f) eqn:E; [done|].
      rewrite lookup_insert_ne; [done|]. intros <-. rewrite E in Hn. by destruct Hn.
    + intros n Hn. rewrite Hd. destruct (opfs_videos w !! file_name f) eqn:E; [done|].
      rewrite lookup_insert_ne; [done|]. by apply Hn.
  - exists NotFoundError, w. split; [done|]. split; [done|].
    split; [apply write_phase_refl|done].
Qed.

(** C8 (counterexample): [x.mp4] cannot be read and is picked before
    [y.mp4].  After the import [y.mp4] is not in the Blob Store, and the one
    message shown is [Failed to add video]; the same message, and nothing
    else, is shown when two files were written before the failing one. *)
Lemma import_failure_counterexample :
  let w := example_world two_files three_records [] in
  let w1 := (handleAdd (PickerPicked [good_handle unreadable_x; good_handle readable_y]) w).2 in
  let w2 := (handleAdd (PickerPicked [good_handle readable_y; good_handle readable_z;
                                      good_handle unreadable_x]) w).2 in
  opfs_videos w1 !! "y.mp4" = None ∧
  toasts w1 = [("Failed to add video", warn)] ∧
  toasts w2 = [("Failed to add video", warn)] ∧
  ¬ other_files_persist.
Proof.
  simpl. split; [reflexivity|]. split; [reflexivity|]. split; [reflexivity|].
  intros H.
  specialize (H (example_world two_files three_records [])
                [good_handle unreadable_x; good_handle readable_y]
                (good_handle unreadable_x) readable_y eq_refl eq_refl).
  assert (Hn : opfs_videos
            (handleAdd (PickerPicked [good_handle unreadable_x; good_handle readable_y])
               (example_world two_files three_records [])).2 !! "y.mp4" = None)
    by reflexivity.
  change (file_name readable_y) with "y.mp4" in H. rewrite Hn in H.
  discriminate H; [by left|reflexivity|by right; left|reflexivity].
Qed.

(** C8 (amended): with OPFS, when a pick fails after picks that were
    readable, [handleAdd] does not throw and shows the single message
    [Failed to add video]; the files picked before the failing one have
    their bytes in the Blob Store, no name other than theirs and the failing
    file's is touched (the files picked after it are not written), and the
    Metadata Index and the list are left as they were. *)
Theorem import_failure_report (w : World) (before : list File) (bad : FileHandle)
    (after : list FileHandle) :
  hasOPFS w = true → pickerSupported w = true →
  Forall (fun f => file_stream_ok f = true) before → pick_fails bad →
  let result := handleAdd (PickerPicked ((good_handle <$> before) ++ bad :: after)) w in
  result.1 = Ok tt ∧
  toasts result.2 = toasts w ++ [("Failed to add video", warn)] ∧
  localStorage result.2 = localStorage w ∧
  videos result.2 = videos w ∧
  (∀ f, f ∈ before →
     ∃ f', f' ∈ before ∧ file_name f' = file_name f ∧
           opfs_videos result.2 !! file_name f = Some (file_bytes f')) ∧
  (∀ n, n ∉ file_name <$> before →
        (∀ f, getFile_result bad = Some f → file_name f ≠ n) →
        opfs_videos result.2 !! n = opfs_videos w !! n).
Proof.
  intros Ho Hp Hgood Hbad.
  destruct (add_loop_good before [] w Ho Hgood) as (w1 & Hl1 & Hw1 & Hd1).
  assert (Ho1 : hasOPFS w1 = true) by (by rewrite (wp_hasOPFS _ _ Hw1)).
  destruct (add_loop_fails bad after ([] ++ (meta_of <$> before)) w1 Ho1 Hbad)
    as (e & w2 & Hl2 & He & Hw2 & Hkeep & Hother).
  pose proof (write_phase_trans _ _ _ Hw1 Hw2) as Hw.
  assert (Hres : handleAdd (PickerPicked ((good_handle <$> before) ++ bad :: after)) w =
                 (Ok tt, push_toast ("Failed to add video", warn) w2)).
  { rewrite handleAdd_picked, add_loop_app by done. unfold bind at 1. rewrite Hl1, Hl2.
    apply String.eqb_neq in He. by rewrite He. }
  cbv zeta. rewrite Hres. simpl.
  split; [done|]. split; [by rewrite (wp_toasts _ _ Hw)|].
  split; [apply (wp_localStorage _ _ Hw)|]. split; [apply (wp_videos _ _ Hw)|]. split.
  - intros f Hf.
    destruct (written_lookup_in before (opfs_videos w) f Hf) as (f' & Hf' & Hn & Hlk).
    exists f'. split; [done|]. split; [done|].
    rewrite Hkeep; rewrite Hd1; [done|]. by rewrite Hlk.
  - intros n Hn Hnb. rewrite Hother by done. rewrite Hd1. by apply written_lookup_notin.
Qed.

Lemma import_failure_report_witness :
  toasts (handleAdd (PickerPicked ((good_handle <$> [readable_y]) ++
                                   good_handle unreadable_x :: [good_handle readable_z]))
            (example_world two_files three_records [])).2
  = [("Failed to add video", warn)].
Proof.
  apply (import_failure_report (example_world two_files three_records [])
           [readable_y] (good_handle unreadable_x) [good_handle readable_z]).
  - reflexivity.
  - reflexivity.
  - repeat constructor.
  - reflexivity.
Defined.

End DownloadsProofs.

(** * The worker's life cycle: install, then serve *)
Module LifecycleProofs.
Import ServiceWorker ServiceWorkerSpec LifecycleSpec ServiceWorkerProofs.

Lemma fetch_all_served urls : ∀ w,
  (∀ u, u ∈ urls → served w u) →
  ∃ rs, fetch_all urls w = (Ok rs, w) ∧ rs.*1 = urls ∧
        ∀ u r, (u, r) ∈ rs → network w u = Responds r.
Proof.
  induction urls as [|u urls IH]; intros w Hall.
  - exists []. split; [done|]. split; [done|]. by intros u r ?%not_elem_of_nil.
  - destruct (Hall u) as (r & Hn & Hok); [by left|]. unfold storable in Hok.
    destruct (IH w) as (rs & Hf & Hk & Hr); [intros; apply Hall; by right|].
    exists ((u, r) :: rs). split; [|split].
    + simpl. unfold bind at 1, fetch. rewrite Hn, Hok. unfold bind. by rewrite Hf.
    + csimpl. by rewrite Hk.
    + intros u' r' [[= -> ->]|Hin]%elem_of_cons; [done|by apply Hr].
Qed.

Lemma fetch_all_refused urls : ∀ w u,
  u ∈ urls → refused w u → fetch_all urls w = (Throw TypeError, w).
Proof.
  induction urls as [|u0 urls IH]; intros w u Hin Href.
  - by apply not_elem_of_nil in Hin.
  - simpl. unfold bind at 1, fetch.
    destruct (network w u0) as [|r0] eqn:Hn0; [done|].
    destruct (ok r0 && negb (status r0 =? 206)%Z) eqn:Hok0; [|done].
    apply andb_true_iff in Hok0 as [Hok0 _].
    apply elem_of_cons in Hin as [->|Hin].
    + destruct Href as [Href|(r & Hr & Hok)]; congruence.
    + unfold bind. by rewrite (IH w u Hin Href).
Qed.

(** The fetches of [addAll] complete only when every URL is served. *)
Lemma fetch_all_completes urls : ∀ w rs w',
  fetch_all urls w = (Ok rs, w') → ∀ u, u ∈ urls → served w u.
Proof.
  induction urls as [|u0 urls IH]; intros w rs w' Hf u Hin.
  - by apply not_elem_of_nil in Hin.
  - simpl in Hf. unfold bind at 1, fetch in Hf.
    destruct (network w u0) as [|r0] eqn:Hn0; [done|].
    destruct (ok r0 && negb (status r0 =? 206)%Z) eqn:Hok0; [|done].
    unfold bind in Hf.
    destruct (fetch_all urls w) as [[rs'|e] w1] eqn:Hrest; [|done].
    apply elem_of_cons in Hin as [->|Hin].
    + by exists r0.
    + by eapply IH.
Qed.

Lemma NoDup_fmap_eq {A B : Type} (f : A → B) (l : list A) x y :
  NoDup (f <$> l) → x ∈ l → y ∈ l → f x = f y → x = y.
Proof.
  induction l as [|a l IH]; csimpl; [by intros _ ?%not_elem_of_nil|].
  intros [Hnin Hnd]%NoDup_cons [->|Hx]%elem_of_cons [->|Hy]%elem_of_cons Hf; [done|..].
  - destruct Hnin. rewrite Hf. by apply list_elem_of_fmap_2.
  - destruct Hnin. rewrite <- Hf. by apply list_elem_of_fmap_2.
  - by apply IH.
Qed.

(** The entries of a cache after the fetched pairs were put into it. *)
Lemma put_all_lookup (rs : list (string * Response)) : ∀ (entries : gmap string Response) k,
  foldl (fun acc ur => <[cache_key ur.1 := ur.2]> acc) entries rs !! k =
    match last (filter (fun ur => cache_key ur.1 = k) rs) with
    | Some ur => Some ur.2
    | None => entries !! k
    end.
Proof.
  induction rs as [|[u0 r0] rs IH]; intros entries k; simpl; [done|].
  rewrite IH, filter_cons. simpl. destruct (decide (cache_key u0 = k)) as [<-|Hne].
  - rewrite last_cons, lookup_insert_eq. by destruct (last _).
  - by rewrite lookup_insert_ne.
Qed.

(** The install listener, in terms of the outcome of the fetches. *)
Lemma install_eq w :
  install w =
    match fetch_all (shell_urls (opened w)) (opened w) with
    | (Ok rs, w1) =>
        if bool_decide (NoDup (cache_key <$> shell_urls (opened w))) then
          skipWaiting
            (set_caches (alter (fun entries =>
                           foldl (fun acc ur => <[cache_key ur.1 := ur.2]> acc) entries rs)
                               CACHE (caches w1)) w1)
        else (Throw InvalidStateError, w1)
    | (Throw e, w1) => (Throw e, w1)
    end.
Proof.
  unfold install, bind at 1. rewrite caches_open_eq.
  unfold bind at 1, gets. unfold bind at 1, cache_addAll, bind at 1.
  fold (shell_urls (opened w)).
  destruct (fetch_all _ (opened w)) as [[rs|e] w1]; [|done].
  by destruct (bool_decide _).
Qed.

Lemma shell_urls_opened w : shell_urls (opened w) = shell_urls w.
Proof.
  unfold shell_urls, scopeURL. by destruct (opened_env w) as (_ & -> & -> & _).
Qed.

Lemma opened_other w k : k ≠ CACHE → caches (opened w) !! k = caches w !! k.
Proof.
  intros Hne. unfold opened, caches_open.
  destruct (caches w !! CACHE); simpl; [done|]. by rewrite lookup_insert_ne.
Qed.

Lemma served_opened w u : served (opened w) u ↔ served w u.
Proof. unfold served. by destruct (opened_env w) as (-> & _). Qed.

Lemma refused_opened w u : refused (opened w) u ↔ refused w u.
Proof. unfold refused. by destruct (opened_env w) as (-> & _). Qed.

(** X1: when one shell asset cannot be fetched (the fetch rejects or the
    status is not ok), installation rejects with a TypeError, stores
    nothing in the current generation, leaves the other generations alone
    and does not call [skipWaiting]. *)
Theorem install_rejects_as_a_whole (w : Worker) (u : string) :
  u ∈ shell_urls w → refused w u →
  (install w).1 = Throw TypeError ∧
  (∀ u', cached_at (install w).2 u' = cached_at w u') ∧
  (∀ k, k ≠ CACHE → caches (install w).2 !! k = caches w !! k) ∧
  skipped_waiting (install w).2 = skipped_waiting w.
Proof.
  intros Hin Href. rewrite install_eq.
  rewrite (fetch_all_refused _ (opened w) u);
    [|by rewrite shell_urls_opened|by apply refused_opened].
  simpl. split; [done|]. split; [apply opened_cached_at|]. split; [apply opened_other|].
  unfold opened, caches_open. by destruct (caches w !! CACHE).
Qed.

Lemma install_rejects_as_a_whole_witness :
  (install (example_worker manifest_missing shell_cache)).1 = Throw TypeError.
Proof.
  apply (install_rejects_as_a_whole (example_worker manifest_missing shell_cache)
           "https://app.example/manifest.json").
  - vm_compute. set_solver.
  - right. exists not_found. split; reflexivity.
Defined.

Lemma index_in_shell_urls w : indexURL w ∈ shell_urls w.
Proof.
  unfold indexURL, shell_urls. apply list_elem_of_fmap_2.
  unfold ASSETS. set_solver.
Qed.

Lemma same_env_indexURL w w' : same_env w w' → indexURL w' = indexURL w.
Proof. intros (Hs & _ & Hr & _). unfold indexURL, scopeURL. by rewrite Hs, Hr. Qed.

Lemma same_env_opened w : same_env w (opened w).
Proof. destruct (opened_env w) as (? & ? & ? & ?). by repeat split. Qed.

(** What a successful installation leaves behind. *)
Lemma install_served w :
  (∀ u, u ∈ shell_urls w → served w u) →
  NoDup (cache_key <$> shell_urls w) →
  ∃ w', install w = (Ok tt, w') ∧ same_env w w' ∧ skipped_waiting w' = true ∧
    (∀ k, k ≠ CACHE → caches w' !! k = caches w !! k) ∧
    (∀ u r, u ∈ shell_urls w → network w u = Responds r → cached_at w' u = Some r) ∧
    (∀ u, (cache_key u ∉ cache_key <$> shell_urls w) → cached_at w' u = cached_at w u).
Proof.
  intros Hall Hnd. rewrite install_eq.
  destruct (fetch_all_served (shell_urls (opened w)) (opened w)) as (rs & -> & Hk & Hr).
  { intros u Hu. rewrite shell_urls_opened in Hu. by apply served_opened, Hall. }
  rewrite shell_urls_opened in Hk |- *. rewrite bool_decide_eq_true_2 by done.
  set (x := set_caches (alter (fun entries =>
                 foldl (fun acc ur => <[cache_key ur.1 := ur.2]> acc) entries rs)
                 CACHE (caches (opened w))) (opened w)).
  exists (skipWaiting x).2. split; [done|]. split; [apply same_env_opened|]. split; [done|].
  assert (Hcached : ∀ u,
    cached_at (skipWaiting x).2 u =
    match last (filter (fun ur => cache_key ur.1 = cache_key u) rs) with
    | Some ur => Some ur.2
    | None => cached_at w u
    end).
  { intros u. rewrite <- (opened_cached_at w u). unfold cached_at. simpl.
    rewrite lookup_alter_eq. destruct (opened_is_Some w) as [entries ->]. simpl.
    apply put_all_lookup. }
  split; [|split].
  - intros k Hne. simpl. rewrite lookup_alter_ne by done. by apply opened_other.
  - intros u r Hu Hn.
    rewrite Hcached. destruct (last _) as [[u' r']|] eqn:Hlast.
    + apply last_Some_elem_of, list_elem_of_filter in Hlast as [Hu' Hin]. simpl in Hu'.
      assert (u' ∈ shell_urls w) as Hu'in
        by (rewrite <- Hk; by apply (list_elem_of_fmap_2 fst) in Hin).
      assert (u' = u) as -> by (by apply (NoDup_fmap_eq cache_key (shell_urls w))).
      apply Hr in Hin. destruct (opened_env w) as (Hnet & _).
      rewrite Hnet in Hin. simpl. congruence.
    + apply last_None in Hlast. rewrite <- Hk in Hu.
      apply list_elem_of_fmap in Hu as ([u' r'] & -> & Hin).
      assert (Hf : (u', r') ∈ filter (fun ur : string * Response =>
                                       cache_key ur.1 = cache_key (u', r').1) rs)
        by (by apply list_elem_of_filter).
      rewrite Hlast in Hf. by apply not_elem_of_nil in Hf.
  - intros u Hu.
    rewrite Hcached. destruct (last _) as [[u' r']|] eqn:Hlast; [|done].
    apply last_Some_elem_of, list_elem_of_filter in Hlast as [Hu' Hin]. simpl in Hu'.
    destruct Hu. rewrite <- Hu'. apply list_elem_of_fmap_2.
    rewrite <- Hk. by apply (list_elem_of_fmap_2 fst) in Hin.
Qed.

(** Installation fulfils only when every shell asset is served and no two
    of them share a cache key. *)
Lemma install_fulfils_only_if w :
  (install w).1 = Ok tt →
  (∀ u, u ∈ shell_urls w → served w u) ∧ NoDup (cache_key <$> shell_urls w).
Proof.
  rewrite install_eq.
  destruct (fetch_all (shell_urls (opened w)) (opened w)) as [[rs|e] w1] eqn:Hf; [|done].
  rewrite shell_urls_opened in Hf |- *.
  destruct (bool_decide_reflect (NoDup (cache_key <$> shell_urls w))) as [Hnd|Hnd]; [|done].
  intros _. split; [|done].
  intros u Hu. apply served_opened. by eapply fetch_all_completes.
Qed.

(** X2: installation fulfils exactly when every shell asset is answered
    with an ok response that is not partial (status 206) and the
    scope-resolved asset URLs are pairwise distinct as cache keys; it then
    has called [skipWaiting], holds under each shell URL the response the
    network gave for it, and has changed no entry under another key and no
    other generation. *)
Theorem install_caches_shell (w : Worker) :
  ((install w).1 = Ok tt ↔
     (∀ u, u ∈ shell_urls w → served w u) ∧ NoDup (cache_key <$> shell_urls w)) ∧
  ((install w).1 = Ok tt →
     skipped_waiting (install w).2 = true ∧
     (∀ u r, u ∈ shell_urls w → network w u = Responds r →
        cached_at (install w).2 u = Some r) ∧
     (∀ u, (cache_key u ∉ cache_key <$> shell_urls w) →
        cached_at (install w).2 u = cached_at w u) ∧
     (∀ k, k ≠ CACHE → caches (install w).2 !! k = caches w !! k)).
Proof.
  split; [split|].
  - apply install_fulfils_only_if.
  - intros [Hall Hnd]. by destruct (install_served w Hall Hnd) as (w' & -> & _).
  - intros [Hall Hnd]%install_fulfils_only_if.
    by destruct (install_served w Hall Hnd) as (w' & -> & _ & Hs & Hk & Hin & Hout).
Qed.

Lemma install_caches_shell_witness :
  cached_at (install (example_worker (fun _ => Responds shell_v2) shell_cache)).2
            "https://app.example/manifest.json" = Some shell_v2.
Proof.
  apply (install_caches_shell (example_worker (fun _ => Responds shell_v2) shell_cache)).
  - reflexivity.
  - vm_compute. set_solver.
  - reflexivity.
Defined.

(** A partial answer to one shell asset makes the whole installation
    reject, although the response is ok. *)
Example install_rejects_partial :
  ok partial_js = true ∧
  (install (example_worker (fun _ => Responds partial_js) shell_cache)).1 = Throw TypeError.
Proof. split; reflexivity. Qed.

Lemma sweep_env k w : same_env w (sweep k w).2.
Proof.
  unfold sweep. destruct (negb _); [|done].
  unfold bind, caches_delete. by destruct (caches w !! k).
Qed.

Lemma sweep_all_env ks : ∀ w, same_env w (promise_all sweep ks w).2.
Proof.
  induction ks as [|k ks IH]; intros w; [done|].
  simpl. unfold bind at 1. pose proof (sweep_env k w) as Hk.
  destruct (sweep k w) as [[r|e] w1]; [|done]. simpl in Hk.
  unfold bind at 1. specialize (IH w1).
  destruct (promise_all sweep ks w1) as [[rs|e] w2]; simpl in *;
    destruct Hk as (? & ? & ? & ?), IH as (? & ? & ? & ?); repeat split; congruence.
Qed.

Lemma activate_env w : same_env w (activate w).2.
Proof.
  change (activate w) with ((promise_all sweep (generations w) ;;; clients_claim) w).
  unfold bind. pose proof (sweep_all_env (generations w) w) as H.
  by destruct (promise_all sweep (generations w) w) as [[rs|e] w1].
Qed.

(** X3: once an installation has fulfilled (every shell asset answered
    with an ok response that is not partial) and the worker has activated,
    a navigation to any URL under total network failure is answered with
    the [index.html] response fetched at install time. *)
Theorem installed_shell_loads_offline (w : Worker) (req : Request) (shell : Response) :
  (install w).1 = Ok tt →
  network w (indexURL w) = Responds shell →
  method req = "GET" → mode req = "navigate" →
  ∃ w', on_fetch req (offline (activate (install w).2).2) = Some (Ok shell, w').
Proof.
  intros [Hall Hnd]%install_fulfils_only_if Hshell Hm Hn.
  destruct (install_served w Hall Hnd) as (w1 & -> & Henv1 & _ & _ & Hin & _). simpl.
  destruct (activate_spec w1) as (w2 & Ha & Hk).
  pose proof (activate_env w1) as Henv2. rewrite Ha in *. simpl in *.
  rewrite (on_fetch_navigate _ req Hm Hn), respond_navigate_eq.
  change (network (offline w2) (indexURL (offline w2))) with NetworkError.
  change (cached_at (offline w2) (indexURL (offline w2))) with (cached_at w2 (indexURL w2)).
  rewrite (same_env_indexURL _ _ Henv2), (same_env_indexURL _ _ Henv1).
  unfold cached_at at 1. rewrite Hk, decide_True by done.
  fold (cached_at w1 (indexURL w)).
  rewrite (Hin _ shell (index_in_shell_urls w) Hshell). simpl. eauto.
Qed.

Lemma installed_shell_loads_offline_witness :
  ∃ w', on_fetch watch_request
          (offline (activate (install (example_worker (fun _ => Responds shell_v2) ∅)).2).2)
        = Some (Ok shell_v2, w').
Proof.
  apply (installed_shell_loads_offline
           (example_worker (fun _ => Responds shell_v2) ∅) watch_request shell_v2).
  - reflexivity.
  - reflexivity.
  - reflexivity.
  - reflexivity.
Defined.

Lemma cached_at_key w u u' : cache_key u = cache_key u' → cached_at w u = cached_at w u'.
Proof. intros Hk. unfold cached_at. by rewrite Hk. Qed.

Lemma stored_cached_at_ne w u u' r :
  cache_key u' ≠ cache_key u → cached_at (stored u r w) u' = cached_at w u'.
Proof.
  intros Hne. destruct (decide (status r = 206%Z)) as [Hs|Hs].
  { by rewrite stored_partial. }
  rewrite stored_whole by done. unfold cached_at. simpl. rewrite lookup_alter_eq.
  destruct (caches w !! CACHE) as [entries|]; simpl; [|done].
  by rewrite lookup_insert_ne.
Qed.

Lemma stored_other w u r k : k ≠ CACHE → caches (stored u r w) !! k = caches w !! k.
Proof.
  intros Hne. destruct (decide (status r = 206%Z)) as [Hs|Hs].
  { by rewrite stored_partial. }
  rewrite stored_whole by done. simpl. by rewrite lookup_alter_ne.
Qed.

Lemma stored_env w u r : same_env w (stored u r (opened w)).
Proof.
  destruct (decide (status r = 206%Z)) as [Hs|Hs].
  - rewrite stored_partial by done. apply same_env_opened.
  - rewrite stored_whole by done. apply same_env_opened.
Qed.

Lemma stored_keeps_some w u u' r :
  is_Some (cached_at w u') → is_Some (cached_at (stored u r (opened w)) u').
Proof.
  intros Hu. destruct (decide (status r = 206%Z)) as [Hs|Hs].
  { by rewrite stored_partial, opened_cached_at. }
  destruct (decide (cache_key u' = cache_key u)) as [Hk|Hk].
  - rewrite (cached_at_key _ _ _ Hk), stored_cached_at_opened by done. eauto.
  - by rewrite stored_cached_at_ne, opened_cached_at.
Qed.

(** X4: the listener answers exactly the GET requests that are
    navigations or go to the worker's own origin, every other request is
    left to the browser, and the promise it answers with never rejects. *)
Theorem fetch_listener_always_resolves (w : Worker) (req : Request) :
  (is_Some (on_fetch req w) ↔
     method req = "GET" ∧ (mode req = "navigate" ∨ url_origin req = location_origin w)) ∧
  (∀ outcome, on_fetch req w = Some outcome → ∃ resp, outcome.1 = Ok resp).
Proof.
  split.
  - unfold on_fetch.
    destruct (String.eqb_spec (method req) "GET") as [Hm|Hm]; simpl.
    + destruct (String.eqb_spec (mode req) "navigate") as [Hn|Hn].
      * split; [by auto|by eauto].
      * destruct (String.eqb_spec (url_origin req) (location_origin w)) as [Ho|Ho].
        -- split; [by auto|by eauto].
        -- split; [by intros [? ?]|]. intros [_ [?|?]]; done.
    + split; [by intros [? ?]|]. by intros [? _].
  - intros outcome. unfold on_fetch.
    destruct (negb _); [done|]. destruct (String.eqb (mode req) "navigate").
    + intros [= <-]. rewrite respond_navigate_eq.
      destruct (network w (indexURL w)) as [|fresh]; [by eauto|].
      destruct (ok fresh); by eauto.
    + destruct (String.eqb _ (location_origin w)); [|done].
      intros [= <-]. rewrite respond_same_origin_eq.
      destruct (cached_at w (url req)); [by eauto|].
      destruct (network w (url req)); by eauto.
Qed.

(** X5: answering a request never touches another generation, never
    evicts an entry of the current one, and never replaces an entry either,
    except the shell document's entry when a navigation refreshes it: an
    asset cached once is served unchanged until the generation goes.
    Entries are told apart by cache key, the URL without its fragment. *)
Theorem fetch_listener_keeps_entries (w : Worker) (req : Request)
    (outcome : Result Response * Worker) :
  on_fetch req w = Some outcome →
  same_env w outcome.2 ∧
  (∀ k, k ≠ CACHE → caches outcome.2 !! k = caches w !! k) ∧
  (∀ u, is_Some (cached_at w u) → is_Some (cached_at outcome.2 u)) ∧
  (∀ u c, cached_at w u = Some c →
     mode req ≠ "navigate" ∨ cache_key u ≠ cache_key (indexURL w) →
     cached_at outcome.2 u = Some c).
Proof.
  assert (Hopened : same_env w (opened w) ∧
            (∀ k, k ≠ CACHE → caches (opened w) !! k = caches w !! k) ∧
            (∀ u, is_Some (cached_at w u) → is_Some (cached_at (opened w) u)) ∧
            (∀ u c, cached_at w u = Some c → cached_at (opened w) u = Some c)).
  { split; [apply same_env_opened|]. split; [apply opened_other|].
    split; intros u; by rewrite opened_cached_at. }
  assert (Hstored : ∀ v r,
            same_env w (stored v r (opened w)) ∧
            (∀ k, k ≠ CACHE → caches (stored v r (opened w)) !! k = caches w !! k) ∧
            (∀ u, is_Some (cached_at w u) → is_Some (cached_at (stored v r (opened w)) u)) ∧
            (∀ u c, cached_at w u = Some c → cache_key u ≠ cache_key v →
               cached_at (stored v r (opened w)) u = Some c)).
  { intros v r. split; [apply stored_env|]. split; [|split].
    - intros k Hne. rewrite stored_other by done. by apply opened_other.
    - intros u Hu. by apply stored_keeps_some.
    - intros u c Hc Hne. by rewrite stored_cached_at_ne, opened_cached_at. }
  unfold on_fetch. destruct (negb _); [done|].
  destruct (String.eqb_spec (mode req) "navigate") as [Hn|Hn].
  - intros [= <-]. rewrite respond_navigate_eq.
    destruct Hopened as (He & Hk & Hs & Hc).
    destruct (network w (indexURL w)) as [|fresh]; simpl.
    { split; [done|]. split; [done|]. split; [done|]. intros u c Hu _. by apply Hc. }
    destruct (ok fresh); simpl.
    + destruct (Hstored (indexURL w) fresh) as (He' & Hk' & Hs' & Hc').
      split; [done|]. split; [done|]. split; [done|].
      intros u c Hu [?|Hne]; [done|]. by apply Hc'.
    + split; [done|]. split; [done|]. split; [done|]. intros u c Hu _. by apply Hc.
  - destruct (String.eqb _ (location_origin w)); [|done].
    intros [= <-]. rewrite respond_same_origin_eq.
    destruct Hopened as (He & Hk & Hs & Hc).
    destruct (cached_at w (url req)) as [c0|] eqn:Hc0; simpl.
    { split; [done|]. split; [done|]. split; [done|]. intros u c Hu _. by apply Hc. }
    destruct (network w (url req)) as [|fresh]; simpl.
    { split; [done|]. split; [done|]. split; [done|]. intros u c Hu _. by apply Hc. }
    destruct (ok fresh); simpl.
    + destruct (Hstored (url req) fresh) as (He' & Hk' & Hs' & Hc').
      split; [done|]. split; [done|]. split; [done|].
      intros u c Hu _. apply Hc'; [done|]. intros Hkey.
      rewrite (cached_at_key _ _ _ Hkey) in Hu. congruence.
    + split; [done|]. split; [done|]. split; [done|]. intros u c Hu _. by apply Hc.
Qed.

Lemma fetch_listener_keeps_entries_witness :
  cached_at (respond_same_origin script_request
               (example_worker (fun _ => Responds script_js) shell_cache)).2
            "https://app.example/index.html" = Some shell_v1.
Proof.
  apply (fetch_listener_keeps_entries
           (example_worker (fun _ => Responds script_js) shell_cache)
           script_request
           (respond_same_origin script_request
              (example_worker (fun _ => Responds script_js) shell_cache))).
  - reflexivity.
  - reflexivity.
  - left. discriminate.
Defined.



(** A partial shell response is returned to the page but leaves the old
    shell as the offline fallback. *)
Example partial_shell_keeps_old_fallback :
  let w := example_worker (fun _ => Responds partial_js) shell_cache in
  (respond_navigate w).1 = Ok partial_js ∧
  ∃ w', on_fetch watch_request (offline (respond_navigate w).2) = Some (Ok shell_v1, w').
Proof. simpl. split; [reflexivity|]. eexists. reflexivity. Qed.

End LifecycleProofs.

(** * Flows of the download tab: write and read, import and rebuild *)
Module FlowsProofs.
Import Downloads DownloadsSpec FlowsSpec DownloadsProofs.

(** X7: a write whose stream completes returns the file's name and size,
    and a read of that name then gives back exactly the written bytes,
    whatever was stored under the name before; no other entry changes. *)
Theorem write_then_read (w : World) (f : File) :
  file_stream_ok f = true →
  ∃ w', writeFileToOPFS f w = (Ok (mkMeta (file_name f) (file_size f)), w') ∧
        readFileFromOPFS (file_name f) w' = (Ok (mkFile (file_name f) (file_bytes f) true), w') ∧
        (∀ n, n ≠ file_name f → opfs_videos w' !! n = opfs_videos w !! n) ∧
        localStorage w' = localStorage w.
Proof.
  intros Hok. destruct (writeFileToOPFS_good f w Hok) as (w' & Hw & Hp & Hd).
  exists w'. split; [done|]. split; [|split].
  - unfold readFileFromOPFS. by rewrite Hd, lookup_insert_eq.
  - intros n Hne. by rewrite Hd, lookup_insert_ne.
  - apply (wp_localStorage _ _ Hp).
Qed.

Lemma write_then_read_witness :
  ∃ w', writeFileToOPFS readable_y (example_world two_files three_records []) =
          (Ok (mkMeta "y.mp4" 2), w') ∧
        readFileFromOPFS "y.mp4" w' = (Ok (mkFile "y.mp4" (bytes_of "yy") true), w').
Proof.
  destruct (write_then_read (example_world two_files three_records []) readable_y eq_refl)
    as (w' & Hw & Hr & _).
  exists w'. split; [exact Hw|exact Hr].
Defined.

(** X8: a write whose stream errors rejects with NotReadableError and is
    never torn: a name that had content keeps exactly that content, a name
    that was absent is left as an empty entry, and no other entry and no
    index record changes. *)
Theorem failed_write_keeps_content (w : World) (f : File) :
  file_stream_ok f = false →
  ∃ w', writeFileToOPFS f w = (Throw NotReadableError, w') ∧
        opfs_videos w' !! file_name f =
          Some (default [] (opfs_videos w !! file_name f)) ∧
        (∀ n, n ≠ file_name f → opfs_videos w' !! n = opfs_videos w !! n) ∧
        localStorage w' = localStorage w.
Proof.
  intros Hok. destruct (writeFileToOPFS_bad f w Hok) as (w' & Hw & Hp & Hd).
  exists w'. split; [done|]. rewrite Hd. split; [|split].
  - destruct (opfs_videos w !! file_name f) eqn:E; simpl; [done|apply lookup_insert_eq].
  - intros n Hne. destruct (opfs_videos w !! file_name f); [done|].
    by rewrite lookup_insert_ne.
  - apply (wp_localStorage _ _ Hp).
Qed.

Lemma failed_write_keeps_content_witness :
  ∃ w', writeFileToOPFS (mkFile "a.mp4" (bytes_of "new bytes") false)
          (example_world two_files three_records []) = (Throw NotReadableError, w') ∧
        opfs_videos w' !! "a.mp4" = Some (bytes_of "aaa").
Proof.
  destruct (failed_write_keeps_content (example_world two_files three_records [])
              (mkFile "a.mp4" (bytes_of "new bytes") false) eq_refl)
    as (w' & Hw & Hl & _).
  exists w'. split; [exact Hw|exact Hl].
Defined.

(** X9: [ls.get] after [ls.set] of the same key returns the value that was
    set, whatever the key held before (nothing, an empty string, text that
    does not parse) and whatever the fallback; other keys read as before. *)
Theorem ls_set_then_get (w : World) (key : string) (val fallback : list MetaRecord) :
  (ls_set key val w).1 = Ok tt ∧
  (ls_get key fallback (ls_set key val w).2).1 = Ok val ∧
  (∀ key' fallback', key' ≠ key →
     (ls_get key' fallback' (ls_set key val w).2).1 = (ls_get key' fallback' w).1) ∧
  opfs_videos (ls_set key val w).2 = opfs_videos w.
Proof.
  split; [done|]. split; [|split; [|done]].
  - unfold ls_get, ls_set, gets, modify. simpl. by rewrite lookup_insert_eq.
  - intros key' fallback' Hne. unfold ls_get, ls_set, gets, modify. simpl.
    by rewrite lookup_insert_ne.
Qed.

Lemma rebuilt_from_listing dir meta : ∀ n,
  listing (rebuilt_from dir meta n) = listing_of dir meta.
Proof.
  unfold listing, listing_of.
  induction meta as [|m meta IH]; intros n; [done|]. csimpl.
  destruct (dir !! meta_name m) as [bytes|]; csimpl; [by rewrite IH|apply IH].
Qed.

Lemma listing_of_elem dir meta m bytes :
  m ∈ meta → dir !! meta_name m = Some bytes →
  (meta_name m, length bytes) ∈ listing_of dir meta.
Proof.
  intros Hm Hd. unfold listing_of. apply list_elem_of_omap.
  exists m. split; [done|]. by rewrite Hd.
Qed.

(** X10: with OPFS, an import of readable files reports success, writes
    every file, merges their records into the index and lists each picked
    name once, with the size of the file stored under it; a rebuild after a
    reload shows the same names and sizes. *)
Theorem import_then_rebuild (w : World) (files : list File) :
  hasOPFS w = true → pickerSupported w = true →
  Forall (fun f => file_stream_ok f = true) files → files ≠ [] →
  let result := handleAdd (PickerPicked (good_handle <$> files)) w in
  result.1 = Ok tt ∧
  toasts result.2 = toasts w ++ [("Video(s) saved for offline use", success)] ∧
  opfs_videos result.2 = written files (opfs_videos w) ∧
  index_of (localStorage result.2) =
    merge_meta (index_of (localStorage w)) (meta_of <$> files) ∧
  listing (videos result.2) =
    listing_of (opfs_videos result.2) (index_of (localStorage result.2)) ∧
  NoDup (video_name <$> videos result.2) ∧
  (∀ f, f ∈ files →
     ∃ f', f' ∈ files ∧ file_name f' = file_name f ∧
           opfs_videos result.2 !! file_name f = Some (file_bytes f') ∧
           (file_name f, file_size f') ∈ listing (videos result.2)) ∧
  listing (videos (mount_effect result.2).2) = listing (videos result.2).
Proof.
  intros Ho Hp Hgood Hne.
  destruct (handleAdd_saved w files Ho Hp Hgood Hne) as (w1 & Hw & Hd & Heq).
  cbv zeta. rewrite Heq. cbv zeta. simpl.
  set (merged := merge_meta (index_of (localStorage w)) (meta_of <$> files)).
  assert (Hidx : index_of (<[DL_VIDS_META_KEY := StoredJson merged]> (localStorage w1))
                 = merged) by (unfold index_of; by rewrite lookup_insert_eq).
  split; [done|]. split; [by rewrite (wp_toasts _ _ Hw)|]. split; [done|].
  split; [done|]. rewrite Hidx. split; [apply rebuilt_from_listing|]. split; [|split].
  - rewrite rebuilt_from_names. apply NoDup_filter, merge_meta_NoDup.
  - intros f Hf. rewrite rebuilt_from_listing, Hd.
    destruct (written_lookup_in files (opfs_videos w) f Hf) as (f' & Hf' & Hn & Hl).
    exists f'. split; [done|]. split; [done|]. split; [done|].
    assert (Hin : file_name f ∈ meta_name <$> merged).
    { apply merge_meta_names_iff. right. rewrite <- list_fmap_compose.
      by apply (list_elem_of_fmap_2 (meta_name ∘ meta_of)). }
    apply list_elem_of_fmap in Hin as (m & Hm & Hmin).
    rewrite Hm in Hl. rewrite Hm. by apply listing_of_elem.
  - rewrite mount_effect_eq. simpl. rewrite (wp_hasOPFS _ _ Hw), Ho. simpl.
    rewrite Hidx. by rewrite !rebuilt_from_listing.
Qed.

Lemma import_then_rebuild_witness :
  listing (videos (mount_effect
            (handleAdd (PickerPicked (good_handle <$> [readable_y; readable_z]))
               (example_world two_files three_records [])).2).2)
  = listing (videos
            (handleAdd (PickerPicked (good_handle <$> [readable_y; readable_z]))
               (example_world two_files three_records [])).2).
Proof.
  apply (import_then_rebuild (example_world two_files three_records [])
           [readable_y; readable_z]).
  - reflexivity.
  - reflexivity.
  - repeat constructor.
  - discriminate.
Defined.

(** The cards after importing [y.mp4] and [z.mp4] into a store that holds
    [a.mp4] and [c.mp4] and an index that also lists the missing [b.mp4]. *)
Example import_listing :
  listing (videos
            (handleAdd (PickerPicked (good_handle <$> [readable_y; readable_z]))
               (example_world two_files three_records [])).2)
  = [("a.mp4", 3); ("c.mp4", 2); ("y.mp4", 2); ("z.mp4", 1)].
Proof. vm_compute. reflexivity. Qed.

Lemma session_videos_length files : ∀ n, length (session_videos files n) = length files.
Proof. induction files as [|f files IH]; intros n; simpl; [done|]. by rewrite IH. Qed.

(** Without OPFS the loop appends one list entry per pick and touches
    nothing else but the object URL counter. *)
Lemma add_loop_session_good files : ∀ acc w,
  hasOPFS w = false →
  add_loop (good_handle <$> files) acc w =
    (Ok acc, set_videos (videos w ++ session_videos files (next_url w))
               (with_next_url (next_url w + length files) w)).
Proof.
  induction files as [|f files IH]; intros acc w Ho.
  - simpl. rewrite app_nil_r, Nat.add_0_r. by destruct w.
  - rewrite fmap_cons. simpl. unfold bind at 1, getFile. simpl.
    unfold bind at 1, gets. rewrite Ho.
    unfold bind at 1, createObjectURL. unfold bind at 1, modify.
    rewrite IH by done. simpl. rewrite <- app_assoc. simpl.
    f_equal. unfold set_videos, with_next_url. simpl. f_equal. lia.
Qed.

(** X11: without OPFS, an import appends one list entry per picked file,
    in pick order, each with a fresh object URL, says that the videos are
    session-only, and leaves the Blob Store and the index untouched; after a
    reload nothing of it is listed. *)
Theorem session_import_is_transient (w : World) (files : list File) :
  hasOPFS w = false → pickerSupported w = true →
  let result := handleAdd (PickerPicked (good_handle <$> files)) w in
  result.1 = Ok tt ∧
  videos result.2 = videos w ++ session_videos files (next_url w) ∧
  toasts result.2 = toasts w ++ [("Video(s) added (session-only)", warn)] ∧
  durable result.2 = durable w ∧ history result.2 = history w ∧
  videos (mount_effect result.2).2 = [].
Proof.
  intros Ho Hp. cbv zeta. rewrite handleAdd_picked by done.
  rewrite add_loop_session_good by done. simpl. rewrite Ho. simpl.
  repeat (split; [done|]). rewrite mount_effect_eq. simpl. by rewrite Ho.
Qed.

Lemma session_import_is_transient_witness :
  videos (handleAdd (PickerPicked (good_handle <$> [readable_y; unreadable_x]))
            session_world).2
  = [mkVideo "y.mp4" 2 0; mkVideo "x.mp4" 4 1].
Proof.
  apply (session_import_is_transient session_world [readable_y; unreadable_x]);
    reflexivity.
Defined.

Lemma filter_name_absent (l : list MetaRecord) n :
  n ∉ meta_name <$> l → filter (fun r => meta_name r = n) l = [].
Proof.
  induction l as [|r l IH]; [done|]. csimpl.
  intros [Hne Hnin]%not_elem_of_cons. rewrite filter_cons, decide_False by done.
  by apply IH.
Qed.

(** X12: the metadata merge loses no name and adds none: the names stored
    afterwards are those stored before and those added, and a name that is
    not among the added records keeps the record it had (the last one, had
    the stored list carried the name twice). *)
Theorem upsertAll_keeps_other_records (w : World) (addedMeta : list MetaRecord) :
  let stored_after := index_of (localStorage (upsertAll addedMeta w).2) in
  (∀ n, n ∈ meta_name <$> stored_after ↔
        n ∈ meta_name <$> index_of (localStorage w) ∨ n ∈ meta_name <$> addedMeta) ∧
  (∀ n, n ∉ meta_name <$> addedMeta →
        filter (fun r => meta_name r = n) stored_after =
        option_list (last (filter (fun r => meta_name r = n) (index_of (localStorage w))))) ∧
  opfs_videos (upsertAll addedMeta w).2 = opfs_videos w.
Proof.
  cbv zeta. rewrite upsertAll_index. split; [|split].
  - intros n. apply merge_meta_names_iff.
  - intros n Hn. rewrite merge_meta_filter, filter_app.
    by rewrite (filter_name_absent addedMeta n Hn), app_nil_r.
  - by rewrite upsertAll_eq.
Qed.

Lemma upsertAll_keeps_other_records_witness :
  filter (fun r => meta_name r = "b.mp4")
    (index_of (localStorage (upsertAll [mkMeta "y.mp4" 2]
                               (example_world two_files three_records [])).2))
  = [mkMeta "b.mp4" 5].
Proof.
  etransitivity.
  - apply (proj1 (proj2 (upsertAll_keeps_other_records
                           (example_world two_files three_records []) [mkMeta "y.mp4" 2]))).
    apply not_elem_of_cons. split; [discriminate|apply not_elem_of_nil].
  - reflexivity.
Defined.

(** X13: removing a file that a successful import has just written
    reports [Removed] and takes the name out of the Blob Store, the index
    and the list, so a later rebuild cannot bring it back. *)
Theorem import_then_remove (w : World) (files : list File) (f : File) :
  hasOPFS w = true → pickerSupported w = true →
  Forall (fun f => file_stream_ok f = true) files → f ∈ files →
  let imported := (handleAdd (PickerPicked (good_handle <$> files)) w).2 in
  let result := handleRemove (file_name f) imported in
  result.1 = Ok tt ∧
  toasts result.2 = toasts imported ++ [("Removed", info)] ∧
  opfs_videos result.2 !! file_name f = None ∧
  (file_name f ∉ meta_name <$> index_of (localStorage result.2)) ∧
  (file_name f ∉ video_name <$> videos result.2).
Proof.
  intros Ho Hp Hgood Hf.
  assert (Hne : files ≠ []).
  { intros ->. by apply not_elem_of_nil in Hf. }
  destruct (handleAdd_saved w files Ho Hp Hgood Hne) as (w1 & Hw & Hd & Heq).
  cbv zeta. rewrite Heq. cbv zeta. simpl.
  destruct (written_lookup_in files (opfs_videos w) f Hf) as (f' & _ & _ & Hl).
  rewrite handleRemove_eq. simpl. rewrite (wp_hasOPFS _ _ Hw), Ho, Hd, Hl. simpl.
  split; [done|]. split; [done|]. split; [apply lookup_delete_eq|]. split.
  - unfold index_of at 1. rewrite lookup_insert_eq.
    intros (r & Hr & [Hne' _]%list_elem_of_filter)%list_elem_of_fmap. done.
  - intros (v & Hv & [Hne' _]%list_elem_of_filter)%list_elem_of_fmap. done.
Qed.

Lemma import_then_remove_witness :
  opfs_videos
    (handleRemove "y.mp4"
       (handleAdd (PickerPicked (good_handle <$> [readable_y; readable_z]))
          (example_world two_files three_records [])).2).2 !! "y.mp4" = None.
Proof.
  apply (import_then_remove (example_world two_files three_records [])
           [readable_y; readable_z] readable_y).
  - reflexivity.
  - reflexivity.
  - repeat constructor.
  - by left.
Defined.

End FlowsProofs.

(** * The saved channels *)
Module ChannelsProofs.
Import Downloads Channels.

Lemma filter_index_ne_delete idx l : ∀ i,
  filter_index_ne idx i l = if decide (i ≤ idx)%nat then delete (idx - i) l else l.
Proof.
  induction l as [|c l IH]; intros i; simpl.
  - by destruct (decide _).
  - rewrite IH. destruct (Nat.eqb_spec i idx) as [->|Hne].
    + rewrite decide_False by lia. rewrite decide_True by lia.
      by rewrite Nat.sub_diag.
    + destruct (decide (i ≤ idx)%nat) as [Hle|Hgt].
      * rewrite decide_True by lia.
        replace (idx - i) with (S (idx - S i)) by lia. done.
      * by rewrite decide_False by lia.
Qed.

Lemma delete_past_end (l : list Channel) : ∀ i, (length l ≤ i)%nat → delete i l = l.
Proof.
  induction l as [|c l IH]; intros i Hle; [done|].
  destruct i as [|i]; simpl in *; [lia|]. f_equal. apply IH. lia.
Qed.

Lemma existsb_url url (l : list Channel) :
  existsb (fun c => String.eqb (channel_url c) url) l = true ↔ url ∈ channel_url <$> l.
Proof.
  induction l as [|c l IH]; csimpl.
  - split; [done|]. by intros ?%not_elem_of_nil.
  - rewrite orb_true_iff, IH, elem_of_cons, String.eqb_eq.
    split; (intros [?|?]; [by left|by right]).
Qed.

Lemma split_on_no_sep sep s :
  Forall (fun seg => sep ∉ String.list_ascii_of_string seg) (split_on sep s).
Proof.
  induction s as [|c s IH]; simpl.
  - repeat constructor. apply not_elem_of_nil.
  - destruct (Ascii.eqb_spec c sep) as [->|Hne].
    + constructor; [apply not_elem_of_nil|done].
    + destruct (split_on sep s) as [|seg rest].
      * repeat constructor. simpl. apply not_elem_of_cons.
        split; [done|apply not_elem_of_nil].
      * apply Forall_cons in IH as [Hseg Hrest]. constructor; [|done].
        simpl. apply not_elem_of_cons. split; [done|done].
Qed.

Lemma remove_first_chars c s x :
  x ∈ String.list_ascii_of_string (remove_first c s) → x ∈ String.list_ascii_of_string s.
Proof.
  induction s as [|d s IH]; simpl; [done|].
  destruct (Ascii.eqb d c); simpl.
  - by right.
  - intros [->|Hin]%elem_of_cons; [by left|right; by apply IH].
Qed.

Lemma name_of_no_slash url : "/"%char ∉ String.list_ascii_of_string (name_of url).
Proof.
  unfold name_of. intros Hin%remove_first_chars.
  pose proof (split_on_no_sep "/"%char url) as Hall.
  destruct (last (split_on "/"%char url)) as [seg|] eqn:Hlast; simpl in Hin.
  - apply last_Some_elem_of in Hlast.
    rewrite Forall_forall in Hall. by apply (Hall seg).
  - by apply not_elem_of_nil in Hin.
Qed.

Section Platform.
Variable trim : string → string.
Variable localeCompare : string → string → Z.

Lemma insert_by_name_perm c l : insert_by_name localeCompare c l ≡ₚ c :: l.
Proof.
  induction l as [|d l IH]; simpl; [done|].
  destruct (_ <? 0)%Z; [done|]. rewrite IH. apply Permutation_swap.
Qed.

Lemma sort_by_name_perm l : sort_by_name localeCompare l ≡ₚ l.
Proof.
  unfold sort_by_name.
  enough (H : ∀ acc, foldl (fun acc c => insert_by_name localeCompare c acc) acc l ≡ₚ l ++ acc).
  { by rewrite H, app_nil_r. }
  induction l as [|c l IH]; intros acc; simpl; [done|].
  rewrite IH, insert_by_name_perm. by rewrite Permutation_middle.
Qed.

(** [addChannel] when the trimmed URL is new and acceptable. *)
Lemma addChannel_saved h :
  trim (channelUrl h) ≠ "" →
  includes "youtube.com" (trim (channelUrl h)) = true →
  trim (channelUrl h) ∉ channel_url <$> channels h →
  addChannel trim localeCompare h =
    mkHome "" (sort_by_name localeCompare
                 (channels h ++ [mkChannel (name_of (trim (channelUrl h)))
                                           (trim (channelUrl h))]))
           (home_toasts h ++ [("Channel saved", success)]).
Proof.
  intros Hne Hinc Hnew. unfold addChannel.
  apply String.eqb_neq in Hne. rewrite Hne, Hinc. simpl.
  destruct (existsb _ (channels h)) eqn:E; [|done].
  by apply existsb_url in E.
Qed.

(** X14: whatever is typed into the URL box, [addChannel] keeps the saved
    channels well formed (no URL saved twice, every saved URL mentions
    [youtube.com]), and so does [removeChannel] for any index. *)
Theorem channels_stay_well_formed (h : Home) (idx : nat) :
  well_formed (channels h) →
  well_formed (channels (addChannel trim localeCompare h)) ∧
  well_formed (channels (removeChannel idx h)).
Proof.
  intros [Hnd Hall]. split.
  - unfold addChannel.
    destruct (String.eqb_spec (trim (channelUrl h)) "") as [He|He]; simpl; [done|].
    destruct (includes "youtube.com" (trim (channelUrl h))) eqn:Hinc; simpl; [|done].
    destruct (existsb _ (channels h)) eqn:E; simpl; [done|].
    assert (Hnew : trim (channelUrl h) ∉ channel_url <$> channels h).
    { intros Hin. apply existsb_url in Hin. congruence. }
    split.
    + rewrite sort_by_name_perm, fmap_app. apply NoDup_app. split; [done|].
      split; [|apply NoDup_singleton].
      intros u Hu ->%list_elem_of_singleton. done.
    + rewrite sort_by_name_perm. apply Forall_app. split; [done|].
      by repeat constructor.
  - unfold removeChannel. simpl. rewrite filter_index_ne_delete, decide_True by lia.
    split.
    + rewrite list_fmap_delete.
      apply (sublist_NoDup _ (channel_url <$> channels h)); [done|apply sublist_delete].
    + by apply Forall_delete.
Qed.

Lemma insert_by_name_sorted c l :
  (∀ a b, (localeCompare a b < 0)%Z ∨ (localeCompare b a <= 0)%Z) →
  Sorted (name_le localeCompare) l →
  Sorted (name_le localeCompare) (insert_by_name localeCompare c l).
Proof.
  intros Htotal. induction 1 as [|d l Hs IH Hd]; simpl.
  - by repeat constructor.
  - destruct (Z.ltb_spec (localeCompare (channel_name c) (channel_name d)) 0) as [Hlt|Hge].
    + constructor; [by constructor|]. constructor. unfold name_le. lia.
    + constructor; [done|].
      assert (Hdc : name_le localeCompare d c).
      { unfold name_le. destruct (Htotal (channel_name c) (channel_name d)); lia. }
      destruct Hd as [|e l Hde]; simpl; [by constructor|].
      destruct (_ <? 0)%Z; by constructor.
Qed.

Lemma sort_by_name_sorted l :
  (∀ a b, (localeCompare a b < 0)%Z ∨ (localeCompare b a <= 0)%Z) →
  Sorted (name_le localeCompare) (sort_by_name localeCompare l).
Proof.
  intros Htotal. unfold sort_by_name.
  enough (H : ∀ acc, Sorted (name_le localeCompare) acc →
                     Sorted (name_le localeCompare)
                       (foldl (fun acc c => insert_by_name localeCompare c acc) acc l)).
  { apply H. constructor. }
  induction l as [|c l IH]; intros acc Hacc; simpl; [done|].
  by apply IH, insert_by_name_sorted.
Qed.

(** X15: a URL that is acceptable after trimming and not yet saved is
    saved under the last segment of its path without the first [@], which
    never contains a slash; the list then holds exactly the old channels and
    the new one, in name order for a comparator that orders any two names,
    the URL box is cleared and [Channel saved] is shown. *)
Theorem addChannel_saves_sorted (h : Home) :
  (∀ a b, (localeCompare a b < 0)%Z ∨ (localeCompare b a <= 0)%Z) →
  trim (channelUrl h) ≠ "" →
  includes "youtube.com" (trim (channelUrl h)) = true →
  trim (channelUrl h) ∉ channel_url <$> channels h →
  let saved := mkChannel (name_of (trim (channelUrl h))) (trim (channelUrl h)) in
  let h' := addChannel trim localeCompare h in
  channels h' ≡ₚ saved :: channels h ∧
  Sorted (name_le localeCompare) (channels h') ∧
  ("/"%char ∉ String.list_ascii_of_string (channel_name saved)) ∧
  channelUrl h' = "" ∧
  home_toasts h' = home_toasts h ++ [("Channel saved", success)].
Proof.
  intros Htotal Hne Hinc Hnew. cbv zeta. rewrite addChannel_saved by done. simpl.
  split; [|split; [|split; [|done]]].
  - rewrite sort_by_name_perm. by rewrite <- Permutation_cons_append.
  - by apply sort_by_name_sorted.
  - apply name_of_no_slash.
Qed.

(** X16: the list grows, by exactly one channel, only when the trimmed URL
    is not empty, mentions [youtube.com] and is not saved yet; in every other
    case the saved channels are left exactly as they were. *)
Theorem addChannel_rejects (h : Home) :
  let url := trim (channelUrl h) in
  let h' := addChannel trim localeCompare h in
  (url ≠ "" ∧ includes "youtube.com" url = true ∧ url ∉ channel_url <$> channels h →
     length (channels h') = S (length (channels h))) ∧
  (url = "" ∨ includes "youtube.com" url = false →
     channels h' = channels h ∧ channelUrl h' = channelUrl h ∧
     home_toasts h' = home_toasts h ++ [("Enter a valid YouTube channel URL", warn)]) ∧
  (url ≠ "" → includes "youtube.com" url = true → url ∈ channel_url <$> channels h →
     channels h' = channels h ∧ channelUrl h' = "" ∧
     home_toasts h' = home_toasts h ++ [("Already saved", warn)]).
Proof.
  cbv zeta. split; [|split].
  - intros (Hne & Hinc & Hnew). rewrite addChannel_saved by done. simpl.
    rewrite sort_by_name_perm, length_app. simpl. lia.
  - intros Hbad. unfold addChannel.
    assert (String.eqb (trim (channelUrl h)) "" ||
            negb (includes "youtube.com" (trim (channelUrl h))) = true) as ->; [|done].
    destruct Hbad as [Hb|Hb]; rewrite Hb; [done|]. apply orb_true_r.
  - intros Hne Hinc Hdup. unfold addChannel.
    apply String.eqb_neq in Hne. rewrite Hne, Hinc. simpl.
    apply existsb_url in Hdup. by rewrite Hdup.
Qed.

(** X17: [removeChannel] takes out the channel at the index and nothing
    else, keeping the order; for an index past the end it removes nothing;
    it shows [Removed] in both cases. *)
Theorem removeChannel_deletes_index (h : Home) (idx : nat) :
  channels (removeChannel idx h) = delete idx (channels h) ∧
  (length (channels h) ≤ idx → channels (removeChannel idx h) = channels h)%nat ∧
  (idx < length (channels h) →
     length (channels (removeChannel idx h)) = length (channels h) - 1)%nat ∧
  home_toasts (removeChannel idx h) = home_toasts h ++ [("Removed", info)].
Proof.
  unfold removeChannel. simpl.
  rewrite filter_index_ne_delete, decide_True, Nat.sub_0_r by lia.
  split; [done|]. split; [|split; [|done]].
  - intros Hle. by apply delete_past_end.
  - intros Hlt. apply length_delete. by apply lookup_lt_is_Some.
Qed.

End Platform.

Lemma by_length_total a b : (by_length a b < 0)%Z ∨ (by_length b a <= 0)%Z.
Proof. unfold by_length. lia. Qed.

Lemma addChannel_saves_sorted_witness :
  channels (addChannel (fun s => s) by_length example_home) ≡ₚ
  mkChannel "zed" "https://www.youtube.com/@zed" :: channels example_home.
Proof.
  apply (addChannel_saves_sorted (fun s => s) by_length example_home).
  - apply by_length_total.
  - discriminate.
  - reflexivity.
  - apply not_elem_of_cons. split; [discriminate|apply not_elem_of_nil].
Defined.

Lemma addChannel_rejects_witness :
  channels (addChannel (fun s => s) by_length
              (mkHome "https://www.youtube.com/@veritasium" (channels example_home) []))
  = channels example_home.
Proof.
  apply (proj2 (proj2 (addChannel_rejects (fun s => s) by_length
           (mkHome "https://www.youtube.com/@veritasium" (channels example_home) [])))).
  - discriminate.
  - reflexivity.
  - by left.
Defined.

Lemma removeChannel_deletes_index_witness :
  channels (removeChannel 3 example_home) = channels example_home.
Proof.
  apply (proj1 (proj2 (removeChannel_deletes_index example_home 3))).
  simpl. lia.
Defined.

(** The name of a channel URL, with and without a trailing slash. *)
Example name_of_examples :
  name_of "https://www.youtube.com/@veritasium" = "veritasium" ∧
  name_of "https://www.youtube.com/@veritasium/" = "" ∧
  name_of "youtube.com" = "youtube.com".
Proof. repeat split. Qed.

Lemma channels_stay_well_formed_witness :
  well_formed (channels (addChannel (fun s => s) by_length example_home)).
Proof.
  apply (channels_stay_well_formed (fun s => s) by_length example_home 0).
  split.
  - apply NoDup_singleton.
  - repeat constructor.
Defined.

End ChannelsProofs.

(** * The tab bar *)
Module TabsProofs.
Import Tabs.

Lemma elem_of_tab_ids t :
  t ∈ tab_ids ↔ t = "scrape" ∨ t = "home" ∨ t = "downloads".
Proof.
  unfold tab_ids. rewrite !elem_of_cons, elem_of_nil.
  split; [intros [?|[?|[?|[]]]]; auto | intros [?|[?|?]]; auto].
Qed.

Lemma findIndex_unknown t : t ∉ tab_ids → findIndex t = (-1)%Z.
Proof.
  rewrite elem_of_tab_ids. intros Hnot.
  unfold findIndex, tab_ids, findIndex_from.
  destruct (String.eqb_spec "scrape" t) as [ <- |_]; [destruct Hnot; auto|].
  destruct (String.eqb_spec "home" t) as [ <- |_]; [destruct Hnot; auto|].
  destruct (String.eqb_spec "downloads" t) as [ <- |_]; [destruct Hnot; auto|].
  reflexivity.
Qed.

Lemma render_known t : t ∈ tab_ids → activeComp t = Ok t.
Proof. intros [->|[->| ->]]%elem_of_tab_ids; reflexivity. Qed.

(** X18: the component lookup of a render succeeds exactly for the three
    tab ids; for any other active tab, such as a stale value read back from
    storage, [findIndex] gives -1 and the lookup throws a TypeError. *)
Theorem render_needs_known_tab (t : string) :
  (t ∈ tab_ids → activeComp t = Ok t) ∧
  (t ∉ tab_ids → findIndex t = (-1)%Z ∧ activeComp t = Throw TypeError).
Proof.
  split; [apply render_known|].
  - intros Hnot. split; [by apply findIndex_unknown|].
    unfold activeComp. by rewrite findIndex_unknown.
Qed.

Lemma render_needs_known_tab_witness :
  activeComp "settings" = Throw TypeError.
Proof.
  apply (proj2 (render_needs_known_tab "settings")).
  rewrite elem_of_tab_ids. intros [H|[H|H]]; discriminate H.
Defined.

Section Numbers.
Variable num : Type.
Variable num_sub : num → num → num.
Variable num_abs : num → num.
Variable num_lt : num → num → bool.
Variable num_gt : num → num → bool.
Variable zero : num.
Variable fifty : num.

Local Abbreviation handleTouchEnd := (handleTouchEnd num num_sub num_abs num_lt num_gt zero fifty).
Local Abbreviation handle_all := (handle_all num num_sub num_abs num_lt num_gt zero fifty).
Local Abbreviation handle := (handle num num_sub num_abs num_lt num_gt zero fifty).

(** A touch end on a known tab. *)
Lemma handleTouchEnd_known (x : num) (a : App num) :
  tab num a ∈ tab_ids →
  ∃ a', handleTouchEnd x a = (Ok tt, a') ∧
        tab num a' ∈ tab_ids ∧ touchStartX num a' = None ∧
        (touchStartX num a = None → a' = a) ∧
        (-1 <= findIndex (tab num a') - findIndex (tab num a) <= 1)%Z.
Proof.
  destruct a as [t start]. simpl. intros Ht.
  unfold Tabs.handleTouchEnd, bind at 1, gets. simpl.
  destruct start as [x0|];
    [|eexists; split; [reflexivity|]; simpl; repeat split; try done; lia].
  unfold bind at 1.
  destruct (num_gt (num_abs (num_sub x x0)) fifty);
    [|eexists; split; [reflexivity|]; simpl; repeat split; try done; lia].
  unfold bind at 1, gets. simpl. unfold bind at 1.
  apply elem_of_tab_ids in Ht as [->|[->| ->]];
    destruct (num_lt (num_sub x x0) zero), (num_gt (num_sub x x0) zero); simpl;
    (eexists; split; [reflexivity|]; simpl;
     split; [apply elem_of_tab_ids; auto|]; split; [done|]; split; [done|];
     vm_compute; split; discriminate).
Qed.

Lemma handle_known (g : Gesture num) (a : App num) :
  tab num a ∈ tab_ids →
  ∃ a', handle g a = (Ok tt, a') ∧ tab num a' ∈ tab_ids.
Proof.
  intros Ht. destruct g as [x|x|i]; simpl.
  - by eexists.
  - destruct (handleTouchEnd_known x a Ht) as (a' & Hh & Ht' & _). by exists a'.
  - destruct (tab_ids !! i) as [id|] eqn:E; [|by eexists].
    eexists. split; [reflexivity|]. simpl. by eapply list_elem_of_lookup_2.
Qed.

(** X19: starting from one of the three tabs, no sequence of touch starts,
    touch ends and clicks on tab buttons makes a handler throw or leads to
    an active tab whose component lookup fails, whatever the coordinates. *)
Theorem gestures_keep_tab_known (gs : list (Gesture num)) (a : App num) :
  tab num a ∈ tab_ids →
  ∃ a', handle_all gs a = (Ok tt, a') ∧
        tab num a' ∈ tab_ids ∧ activeComp (tab num a') = Ok (tab num a').
Proof.
  revert a. induction gs as [|g gs IH]; intros a Ht.
  - exists a. split; [done|]. split; [done|].
    by apply render_known.
  - destruct (handle_known g a Ht) as (a1 & Hg & Ht1).
    destruct (IH a1 Ht1) as (a' & Hgs & Ht' & Hr).
    exists a'. split; [|done]. simpl. unfold bind. by rewrite Hg.
Qed.

(** X20: a touch end on one of the three tabs never throws and always
    forgets the touch start; without a touch start it changes nothing; and
    the active tab moves to a neighbour at most, so a swipe at either end of
    the bar does not wrap around. *)
Theorem swipe_moves_to_neighbour (x : num) (a : App num) :
  tab num a ∈ tab_ids →
  ∃ a', handleTouchEnd x a = (Ok tt, a') ∧
        touchStartX num a' = None ∧
        (touchStartX num a = None → a' = a) ∧
        (0 <= findIndex (tab num a') <= 2)%Z ∧
        (-1 <= findIndex (tab num a') - findIndex (tab num a) <= 1)%Z.
Proof.
  intros Ht. destruct (handleTouchEnd_known x a Ht) as (a' & Hh & Ht' & Hs & Hn & Hd).
  exists a'. split; [done|]. split; [done|]. split; [done|]. split; [|done].
  apply elem_of_tab_ids in Ht' as [->|[->| ->]]; vm_compute; split; discriminate.
Qed.

End Numbers.

Lemma gestures_keep_tab_known_witness :
  ∃ a', Tabs.handle_all Z Z.sub Z.abs Z.ltb Z.gtb 0%Z 50%Z
          [TouchStart Z 200%Z; TouchEnd Z 10%Z; ClickTab Z 0; TouchEnd Z 300%Z]
          (mkApp Z "home" None) = (Ok tt, a') ∧
        tab Z a' ∈ tab_ids ∧ activeComp (tab Z a') = Ok (tab Z a').
Proof.
  apply (gestures_keep_tab_known Z Z.sub Z.abs Z.ltb Z.gtb 0%Z 50%Z
           [TouchStart Z 200%Z; TouchEnd Z 10%Z; ClickTab Z 0; TouchEnd Z 300%Z]
           (mkApp Z "home" None)).
  apply elem_of_tab_ids. simpl. auto.
Defined.

Lemma swipe_moves_to_neighbour_witness :
  ∃ a', Tabs.handleTouchEnd Z Z.sub Z.abs Z.ltb Z.gtb 0%Z 50%Z 10%Z
          (mkApp Z "downloads" (Some 200%Z)) = (Ok tt, a') ∧
        touchStartX Z a' = None.
Proof.
  destruct (swipe_moves_to_neighbour Z Z.sub Z.abs Z.ltb Z.gtb 0%Z 50%Z 10%Z
              (mkApp Z "downloads" (Some 200%Z))) as (a' & Hh & Hs & _).
  - apply elem_of_tab_ids. simpl. auto.
  - exists a'. split; [exact Hh|exact Hs].
Defined.

(** With integer pixel coordinates: a long swipe to the left on the middle
    tab goes to the last tab, and the same swipe there goes nowhere. *)
Example swipe_left_examples :
  (Tabs.handleTouchEnd Z Z.sub Z.abs Z.ltb Z.gtb 0%Z 50%Z 10%Z
     (mkApp Z "home" (Some 200%Z))).2 = mkApp Z "downloads" None ∧
  (Tabs.handleTouchEnd Z Z.sub Z.abs Z.ltb Z.gtb 0%Z 50%Z 10%Z
     (mkApp Z "downloads" (Some 200%Z))).2 = mkApp Z "downloads" None.
Proof. split; reflexivity. Qed.

End TabsProofs.
